(** * efpmd input-file loader ([efpmd/src/parse.c])

    A shallow embedding of the configuration loader of efpmd, the molecular
    dynamics driver of libefp, and the properties of its input grammar.

    C strings are [string]s without their terminating NUL, a [char *] that
    may be NULL is an [option string], the [FILE *] is the text that is
    still unread, and [error(...)], which ends the process, is the [Error]
    outcome of the [result] monad. *)

From Stdlib Require Import String Ascii List ZArith Lia Bool Arith.
From Stdlib Require Import Floats.
Import ListNotations.

Local Open Scope string_scope.
Local Open Scope list_scope.
Local Open Scope nat_scope.

(* ================================================================== *)
(** ** Characters and C strings *)

Module CString.

Definition NUL : ascii := "000"%char.
Definition LF : ascii := "010"%char.
Definition DQUOTE : ascii := "034"%char.
Definition HASH : ascii := "035"%char.

Definition nl : string := String LF EmptyString.
Definition dq : string := String DQUOTE EmptyString.

(** [isspace], [isupper], [tolower] and [isdigit] of <ctype.h> in the C
    locale. *)
Definition isspace (c : ascii) : bool :=
  match c with
  | " " | "009" | "010" | "011" | "012" | "013" => true
  | _ => false
  end%char.

Definition isupper (c : ascii) : bool :=
  match c with
  | "A" | "B" | "C" | "D" | "E" | "F" | "G" | "H" | "I" | "J" | "K" | "L" | "M"
  | "N" | "O" | "P" | "Q" | "R" | "S" | "T" | "U" | "V" | "W" | "X" | "Y" | "Z" =>
      true
  | _ => false
  end%char.

Definition tolower (c : ascii) : ascii :=
  match c with
  | "A" => "a"
  | "B" => "b"
  | "C" => "c"
  | "D" => "d"
  | "E" => "e"
  | "F" => "f"
  | "G" => "g"
  | "H" => "h"
  | "I" => "i"
  | "J" => "j"
  | "K" => "k"
  | "L" => "l"
  | "M" => "m"
  | "N" => "n"
  | "O" => "o"
  | "P" => "p"
  | "Q" => "q"
  | "R" => "r"
  | "S" => "s"
  | "T" => "t"
  | "U" => "u"
  | "V" => "v"
  | "W" => "w"
  | "X" => "x"
  | "Y" => "y"
  | "Z" => "z"
  | _ => c
  end%char.

Definition isdigit (c : ascii) : bool :=
  match c with
  | "0" | "1" | "2" | "3" | "4" | "5" | "6" | "7" | "8" | "9" => true
  | _ => false
  end%char.

Definition digit_val (c : ascii) : Z :=
  match c with
  | "1" => 1
  | "2" => 2
  | "3" => 3
  | "4" => 4
  | "5" => 5
  | "6" => 6
  | "7" => 7
  | "8" => 8
  | "9" => 9
  | _ => 0
  end%char%Z.

(** The C string held in a buffer: the bytes before the first NUL. *)
Fixpoint c_str (s : string) : string :=
  match s with
  | EmptyString => EmptyString
  | String c r => if Ascii.eqb c NUL then EmptyString else String c (c_str r)
  end.

(** The loop of [next_line] that lower-cases a buffer in place. *)
Fixpoint lower (s : string) : string :=
  match s with
  | EmptyString => EmptyString
  | String c r => String (tolower c) (lower r)
  end.

(** [p + n]: the cursor moved [n] characters on. *)
Fixpoint advance (n : nat) (s : string) : string :=
  match n, s with
  | S n', String _ r => advance n' r
  | _, _ => s
  end.

(** The cursor moved over the white space it stands on. *)
Fixpoint skip_spaces (s : string) : string :=
  match s with
  | String c r => if isspace c then skip_spaces r else s
  | EmptyString => EmptyString
  end.

(** Modelled from the spec: the [strneq] macro is defined in common.h, which
    is not among the sources; names are "matched literally", as "a literal
    prefix" of the line, so it stands for [strncmp(a, b, n) == 0]: the
    first [n] characters agree, or both strings end together before
    that. *)
Fixpoint strneq (a b : string) (n : nat) {struct n} : bool :=
  match n with
  | O => true
  | S n' =>
      match a, b with
      | EmptyString, EmptyString => true
      | String x a', String y b' => Ascii.eqb x y && strneq a' b' n'
      | _, _ => false
      end
  end.

Definition strlen (s : string) : nat := String.length s.

(** Does the string hold the character? *)
Fixpoint has_char (c : ascii) (s : string) : bool :=
  match s with
  | EmptyString => false
  | String x r => Ascii.eqb x c || has_char c r
  end.

(** Does the string hold an upper-case letter? *)
Fixpoint has_upper (s : string) : bool :=
  match s with
  | EmptyString => false
  | String x r => isupper x || has_upper r
  end.

(** Is every character white space? *)
Fixpoint blank (s : string) : bool :=
  match s with
  | EmptyString => true
  | String x r => isspace x && blank r
  end.

(** Two double quotes side by side somewhere in the string. *)
Fixpoint has_empty_quotes (s : string) : bool :=
  match s with
  | String x ((String y _) as r) =>
      (Ascii.eqb x DQUOTE && Ascii.eqb y DQUOTE) || has_empty_quotes r
  | _ => false
  end.

End CString.

Import CString.

Arguments isspace : simpl never.
Arguments isupper : simpl never.
Arguments tolower : simpl never.

(* ================================================================== *)
(** ** Outcomes *)

(** The messages [error(...)] is called with; [error] does not return. The
    last two are not messages of parse.c: a failed [assert], and the bound
    of the model's reading loop, which [parse_config] is proved never to
    reach. *)
Inductive error : Type :=
| UNABLE_TO_OPEN_INPUT_FILE
| INCORRECT_VALUE_FOR_OPTION (name : string)
| OPTION_VALUE_IS_OUT_OF_RANGE (name : string)
| UNKNOWN_OPTION_IN_INPUT_FILE
| UNABLE_TO_READ_FRAGMENT_NAME
| INCORRECT_FRAGMENT_COORDINATES_FORMAT
| INCORRECT_FRAGMENT_VELOCITIES_FORMAT
| ONLY_ONE_OPTION_PER_LINE_IS_ALLOWED
| AT_LEAST_ONE_FRAGMENT_MUST_BE_SPECIFIED
| ASSERTION_FAILED
| OUT_OF_FUEL.

Inductive result (A : Type) : Type :=
| Ok (a : A)
| Error (e : error).

Arguments Ok {A} a.
Arguments Error {A} e.

Definition bind {A B : Type} (c : result A) (k : A -> result B) : result B :=
  match c with
  | Ok a => k a
  | Error e => Error e
  end.

Notation "x <- c ;; k" := (bind c (fun x => k))
  (at level 61, c at next level, right associativity).
Notation "' p <- c ;; k" := (bind c (fun x => let 'p := x in k))
  (at level 61, p pattern, c at next level, right associativity).

Definition is_ok {A : Type} (r : result A) : bool :=
  match r with Ok _ => true | Error _ => false end.

(* ================================================================== *)
(** ** What parse.c takes from outside

    [double] arithmetic, the C library's [strtod], and three macros of
    common.h, which is not part of the sources at hand. *)

Class Platform : Type := {
  double : Type;
  (** [x * y], [x / y] and [x > y] on [double]. *)
  dmul : double -> double -> double;
  ddiv : double -> double -> double;
  dgt : double -> double -> bool;
  (** The constants [0.0] (also what [memset] leaves) and [1.0]. *)
  d_zero : double;
  d_one : double;
  (** [strtod(s, &endptr)]: the value and [endptr - s], which is 0 when no
      conversion was made. *)
  strtod : string -> double * nat;
  (** Femtoseconds to atomic time units. *)
  FS_TO_AU : double;
  BOHR_RADIUS : double;
  (** The directory the fragment library is installed in. *)
  EFP_DATA_DIR : string
}.

(** [strtol(s, &endptr, 10)] on a machine whose [long] has 64 bits: white
    space, an optional sign, decimal digits; the value is clamped to the
    range of [long]. The result is the value and [endptr - s]. *)
Module Strtol.

Definition LONG_MAX : Z := 2 ^ 63 - 1.
Definition LONG_MIN : Z := - 2 ^ 63.

Fixpoint digits (acc : Z) (s : string) : Z * nat :=
  match s with
  | String c r =>
      if isdigit c
      then let '(v, n) := digits (10 * acc + digit_val c) r in (v, S n)
      else (acc, O)
  | EmptyString => (acc, O)
  end.

Definition clamp (z : Z) : Z := Z.max LONG_MIN (Z.min LONG_MAX z).

Definition strtol (s : string) : Z * nat :=
  let p := skip_spaces s in
  let ws := (String.length s - String.length p)%nat in
  let '(neg, sg, p1) :=
    match p with
    | String "-"%char r => (true, 1%nat, r)
    | String "+"%char r => (false, 1%nat, r)
    | _ => (false, O, p)
    end in
  let '(v, n) := digits 0 p1 in
  match n with
  | O => (0%Z, O)
  | S _ => (clamp (if neg then - v else v), (ws + sg + n)%nat)
  end.

(** The conversion of the [long] to [int] in [int val = strtol(...)]:
    the low 32 bits, read as a signed number. *)
Definition to_int (z : Z) : Z := (z + 2 ^ 31) mod 2 ^ 32 - 2 ^ 31.

End Strtol.

(* ================================================================== *)
(** ** The line reader *)

Record stream : Type := {
  buffer : option string;   (** the current line, NULL at end of input *)
  ptr : option string;      (** the cursor: what is left of the line *)
  inp : string              (** the text [getc] has not yet returned *)
}.

(** The characters [getc] returns up to a line feed or the end of the
    input, and the input left after the line feed. *)
Fixpoint getline (input : string) : string * string :=
  match input with
  | EmptyString => (EmptyString, EmptyString)
  | String c r =>
      if Ascii.eqb c LF then (EmptyString, r)
      else let '(l, r') := getline r in (String c l, r')
  end.

(** NULL when the end of the input comes before any character. *)
Definition read_line (input : string) : option (string * string) :=
  match input with
  | EmptyString => None
  | String _ _ => Some (getline input)
  end.

Definition next_line (st : stream) : stream :=
  match read_line (inp st) with
  | None => {| buffer := None; ptr := None; inp := inp st |}
  | Some (l, r) =>
      let b := lower (c_str l) in
      {| buffer := Some b; ptr := Some b; inp := r |}
  end.

Definition set_ptr (st : stream) (p : option string) : stream :=
  {| buffer := buffer st; ptr := p; inp := inp st |}.

Definition skip_space (st : stream) : stream :=
  set_ptr st (option_map skip_spaces (ptr st)).

(** The character the cursor stands on; NUL at the end of the line. *)
Definition peek (p : option string) : ascii :=
  match p with
  | Some (String c _) => c
  | _ => NUL
  end.

(** Does the cursor stand on the terminating NUL? *)
Definition at_end (p : option string) : bool :=
  match p with
  | Some (String _ _) => false
  | _ => true
  end.

(* ================================================================== *)
(** ** Scalar parsers

    A parser gets the cursor and returns, when it matches, the value it
    writes to [out] and the cursor moved past what it read. *)

Definition parser (T : Type) : Type := option string -> option (T * string).

(** A quoted token, read from behind its opening quote: the characters up
    to the closing quote and the text after it; nothing when the line ends
    first. *)
Fixpoint quoted (s : string) : option (string * string) :=
  match s with
  | EmptyString => None
  | String c r =>
      if Ascii.eqb c DQUOTE then Some (EmptyString, r)
      else match quoted r with
           | Some (tok, rest) => Some (String c tok, rest)
           | None => None
           end
  end.

(** A bare token: the characters up to the next white space. *)
Fixpoint bare (s : string) : string * string :=
  match s with
  | EmptyString => (EmptyString, EmptyString)
  | String c r =>
      if isspace c then (EmptyString, s)
      else let '(tok, rest) := bare r in (String c tok, rest)
  end.

Definition parse_string : parser string :=
  fun str =>
    match str with
    | None => None
    | Some s =>
        match skip_spaces s with
        | EmptyString => None
        | String c r as p =>
            if Ascii.eqb c DQUOTE then quoted r else Some (bare p)
        end
    end.

Definition parse_int : parser Z :=
  fun str =>
    match str with
    | None => None
    | Some s =>
        let '(val, n) := Strtol.strtol s in
        match n with
        | O => None
        | S _ => Some (Strtol.to_int val, advance n s)
        end
    end.

Definition parse_double `{Platform} : parser double :=
  fun str =>
    match str with
    | None => None
    | Some s =>
        let '(val, n) := strtod s in
        match n with
        | O => None
        | S _ => Some (val, advance n s)
        end
    end.

(* ================================================================== *)
(** ** The enumeration matcher *)

(** The length of the name the table pointer stands on. *)
Fixpoint name_len (p : string) : nat :=
  match p with
  | EmptyString => O
  | String c r => if Ascii.eqb c LF then O else S (name_len r)
  end.

(** [strchr(p, '\n')] *)
Fixpoint strchr_LF (p : string) : option string :=
  match p with
  | EmptyString => None
  | String c r => if Ascii.eqb c LF then Some p else strchr_LF r
  end.

(** The body of the loop over the names: the name the pointer stands on,
    once a leading line feed is stepped over. *)
Definition enum_entry (p : string) : string :=
  match p with
  | String c r => if Ascii.eqb c LF then r else p
  | EmptyString => p
  end.

(** The loop of [parse_enum]. [values] is what [values_ptr] points to; it
    moves one element on for each name that does not match. The loop runs
    once for each name, so the length of the table bounds it. *)
Fixpoint parse_enum_loop {V : Type} (fuel : nat) (str : string)
    (p : option string) (values : list V) : option (V * string) :=
  match fuel, p with
  | S fuel', Some p0 =>
      let p1 := enum_entry p0 in
      let len := name_len p1 in
      if strneq str p1 len
      then match values with
           | v :: _ => Some (v, advance len str)
           | [] => None
           end
      else parse_enum_loop fuel' str (strchr_LF p1) (tl values)
  | _, _ => None
  end.

Definition parse_enum {V : Type} (str : option string) (names : string)
    (values : list V) : option (V * string) :=
  match str with
  | None => None
  | Some s => parse_enum_loop (S (String.length names)) s (Some names) values
  end.

(* ================================================================== *)
(** ** The configuration record *)

Inductive enum_run_type : Type :=
| RUN_TYPE_SP | RUN_TYPE_GRAD | RUN_TYPE_HESS | RUN_TYPE_OPT | RUN_TYPE_MD.

Inductive efp_coord_type : Type :=
| EFP_COORD_TYPE_POINTS | EFP_COORD_TYPE_XYZABC | EFP_COORD_TYPE_ROTMAT.

Inductive efp_elec_damp : Type :=
| EFP_ELEC_DAMP_SCREEN | EFP_ELEC_DAMP_OVERLAP | EFP_ELEC_DAMP_OFF.

Inductive efp_disp_damp : Type :=
| EFP_DISP_DAMP_TT | EFP_DISP_DAMP_OVERLAP | EFP_DISP_DAMP_OFF.

Inductive efp_pol_damp : Type :=
| EFP_POL_DAMP_TT | EFP_POL_DAMP_OFF.

Inductive enum_ensemble_type : Type :=
| ENSEMBLE_TYPE_NVE | ENSEMBLE_TYPE_NVT.

(** Modelled from the spec: [enum efp_term] is declared in efp.h, which is
    not among the sources; the active terms are "a bit set over a fixed
    small vocabulary", so each term is one bit of its own. *)
Definition EFP_TERM_ELEC : Z := 1.
Definition EFP_TERM_POL : Z := 2.
Definition EFP_TERM_DISP : Z := 4.
Definition EFP_TERM_XR : Z := 8.

Section Loader.

Context `{P : Platform}.

(** Modelled from the spec: [struct frag] is declared in common.h; a name,
    a coordinate array that holds up to four rows of three values, and six
    velocities. *)
Record frag : Type := {
  name : option string;
  coord : list double;
  vel : list double
}.

Definition frag_zero : frag :=
  {| name := None; coord := repeat d_zero 12; vel := repeat d_zero 6 |}.

(** Modelled from the spec: [struct config] is declared in common.h; its
    members are the ones the option table and the loader name. *)
Record config : Type := {
  run_type : enum_run_type;
  coord_type : efp_coord_type;
  units_factor : double;
  terms : Z;
  elec_damp : efp_elec_damp;
  disp_damp : efp_disp_damp;
  pol_damp : efp_pol_damp;
  hess_delta : double;
  max_steps : Z;
  print_step : Z;
  target_temperature : double;
  time_step : double;
  ensemble_type : enum_ensemble_type;
  thermostat_tau : double;
  opt_tol : double;
  fraglib_path : option string;
  userlib_path : option string;
  n_frags : Z;
  frags : list frag
}.

(** What [memset(config, 0, sizeof(struct config))] leaves. Each option
    member is written by [set_config_defaults] before anything reads it. *)
Definition config_zero : config :=
  {| run_type := RUN_TYPE_SP; coord_type := EFP_COORD_TYPE_POINTS;
     units_factor := d_zero; terms := 0;
     elec_damp := EFP_ELEC_DAMP_SCREEN; disp_damp := EFP_DISP_DAMP_TT;
     pol_damp := EFP_POL_DAMP_TT; hess_delta := d_zero; max_steps := 0;
     print_step := 0; target_temperature := d_zero; time_step := d_zero;
     ensemble_type := ENSEMBLE_TYPE_NVE; thermostat_tau := d_zero;
     opt_tol := d_zero; fraglib_path := None; userlib_path := None;
     n_frags := 0; frags := [] |}.

(** Stores through [(char * )config + offsetof(struct config, member)]. *)
Definition set_run_type (v : enum_run_type) (c : config) : config :=
  let '(Build_config _ a2 a3 a4 a5 a6 a7 a8 a9 a10 a11 a12 a13 a14 a15 a16 a17 a18 a19) := c in
  Build_config v a2 a3 a4 a5 a6 a7 a8 a9 a10 a11 a12 a13 a14 a15 a16 a17 a18 a19.
Definition set_coord_type (v : efp_coord_type) (c : config) : config :=
  let '(Build_config a1 _ a3 a4 a5 a6 a7 a8 a9 a10 a11 a12 a13 a14 a15 a16 a17 a18 a19) := c in
  Build_config a1 v a3 a4 a5 a6 a7 a8 a9 a10 a11 a12 a13 a14 a15 a16 a17 a18 a19.
Definition set_units_factor (v : double) (c : config) : config :=
  let '(Build_config a1 a2 _ a4 a5 a6 a7 a8 a9 a10 a11 a12 a13 a14 a15 a16 a17 a18 a19) := c in
  Build_config a1 a2 v a4 a5 a6 a7 a8 a9 a10 a11 a12 a13 a14 a15 a16 a17 a18 a19.
Definition set_terms (v : Z) (c : config) : config :=
  let '(Build_config a1 a2 a3 _ a5 a6 a7 a8 a9 a10 a11 a12 a13 a14 a15 a16 a17 a18 a19) := c in
  Build_config a1 a2 a3 v a5 a6 a7 a8 a9 a10 a11 a12 a13 a14 a15 a16 a17 a18 a19.
Definition set_elec_damp (v : efp_elec_damp) (c : config) : config :=
  let '(Build_config a1 a2 a3 a4 _ a6 a7 a8 a9 a10 a11 a12 a13 a14 a15 a16 a17 a18 a19) := c in
  Build_config a1 a2 a3 a4 v a6 a7 a8 a9 a10 a11 a12 a13 a14 a15 a16 a17 a18 a19.
Definition set_disp_damp (v : efp_disp_damp) (c : config) : config :=
  let '(Build_config a1 a2 a3 a4 a5 _ a7 a8 a9 a10 a11 a12 a13 a14 a15 a16 a17 a18 a19) := c in
  Build_config a1 a2 a3 a4 a5 v a7 a8 a9 a10 a11 a12 a13 a14 a15 a16 a17 a18 a19.
Definition set_pol_damp (v : efp_pol_damp) (c : config) : config :=
  let '(Build_config a1 a2 a3 a4 a5 a6 _ a8 a9 a10 a11 a12 a13 a14 a15 a16 a17 a18 a19) := c in
  Build_config a1 a2 a3 a4 a5 a6 v a8 a9 a10 a11 a12 a13 a14 a15 a16 a17 a18 a19.
Definition set_hess_delta (v : double) (c : config) : config :=
  let '(Build_config a1 a2 a3 a4 a5 a6 a7 _ a9 a10 a11 a12 a13 a14 a15 a16 a17 a18 a19) := c in
  Build_config a1 a2 a3 a4 a5 a6 a7 v a9 a10 a11 a12 a13 a14 a15 a16 a17 a18 a19.
Definition set_max_steps (v : Z) (c : config) : config :=
  let '(Build_config a1 a2 a3 a4 a5 a6 a7 a8 _ a10 a11 a12 a13 a14 a15 a16 a17 a18 a19) := c in
  Build_config a1 a2 a3 a4 a5 a6 a7 a8 v a10 a11 a12 a13 a14 a15 a16 a17 a18 a19.
Definition set_print_step (v : Z) (c : config) : config :=
  let '(Build_config a1 a2 a3 a4 a5 a6 a7 a8 a9 _ a11 a12 a13 a14 a15 a16 a17 a18 a19) := c in
  Build_config a1 a2 a3 a4 a5 a6 a7 a8 a9 v a11 a12 a13 a14 a15 a16 a17 a18 a19.
Definition set_target_temperature (v : double) (c : config) : config :=
  let '(Build_config a1 a2 a3 a4 a5 a6 a7 a8 a9 a10 _ a12 a13 a14 a15 a16 a17 a18 a19) := c in
  Build_config a1 a2 a3 a4 a5 a6 a7 a8 a9 a10 v a12 a13 a14 a15 a16 a17 a18 a19.
Definition set_time_step (v : double) (c : config) : config :=
  let '(Build_config a1 a2 a3 a4 a5 a6 a7 a8 a9 a10 a11 _ a13 a14 a15 a16 a17 a18 a19) := c in
  Build_config a1 a2 a3 a4 a5 a6 a7 a8 a9 a10 a11 v a13 a14 a15 a16 a17 a18 a19.
Definition set_ensemble_type (v : enum_ensemble_type) (c : config) : config :=
  let '(Build_config a1 a2 a3 a4 a5 a6 a7 a8 a9 a10 a11 a12 _ a14 a15 a16 a17 a18 a19) := c in
  Build_config a1 a2 a3 a4 a5 a6 a7 a8 a9 a10 a11 a12 v a14 a15 a16 a17 a18 a19.
Definition set_thermostat_tau (v : double) (c : config) : config :=
  let '(Build_config a1 a2 a3 a4 a5 a6 a7 a8 a9 a10 a11 a12 a13 _ a15 a16 a17 a18 a19) := c in
  Build_config a1 a2 a3 a4 a5 a6 a7 a8 a9 a10 a11 a12 a13 v a15 a16 a17 a18 a19.
Definition set_opt_tol (v : double) (c : config) : config :=
  let '(Build_config a1 a2 a3 a4 a5 a6 a7 a8 a9 a10 a11 a12 a13 a14 _ a16 a17 a18 a19) := c in
  Build_config a1 a2 a3 a4 a5 a6 a7 a8 a9 a10 a11 a12 a13 a14 v a16 a17 a18 a19.
Definition set_fraglib_path (v : string) (c : config) : config :=
  let '(Build_config a1 a2 a3 a4 a5 a6 a7 a8 a9 a10 a11 a12 a13 a14 a15 _ a17 a18 a19) := c in
  Build_config a1 a2 a3 a4 a5 a6 a7 a8 a9 a10 a11 a12 a13 a14 a15 (Some v) a17 a18 a19.
Definition set_userlib_path (v : string) (c : config) : config :=
  let '(Build_config a1 a2 a3 a4 a5 a6 a7 a8 a9 a10 a11 a12 a13 a14 a15 a16 _ a18 a19) := c in
  Build_config a1 a2 a3 a4 a5 a6 a7 a8 a9 a10 a11 a12 a13 a14 a15 a16 (Some v) a18 a19.

(** [config->n_frags++] with the fragment array grown by one element, and
    the store of the parsed fragment into that last element. *)
Definition push_frag (f : frag) (c : config) : config :=
  let '(Build_config a1 a2 a3 a4 a5 a6 a7 a8 a9 a10 a11 a12 a13 a14 a15 a16 a17 n fs) := c in
  Build_config a1 a2 a3 a4 a5 a6 a7 a8 a9 a10 a11 a12 a13 a14 a15 a16 a17 (n + 1) (fs ++ [f]).

Definition set_frags (fs : list frag) (c : config) : config :=
  let '(Build_config a1 a2 a3 a4 a5 a6 a7 a8 a9 a10 a11 a12 a13 a14 a15 a16 a17 a18 _) := c in
  Build_config a1 a2 a3 a4 a5 a6 a7 a8 a9 a10 a11 a12 a13 a14 a15 a16 a17 a18 fs.

(** [a[idx] = v] *)
Fixpoint store (idx : nat) (v : double) (a : list double) : list double :=
  match a with
  | [] => []
  | x :: a' =>
      match idx with
      | O => v :: a'
      | S i => x :: store i v a'
      end
  end.

(* ------------------------------------------------------------------ *)
(** *** Enumerated options *)

Definition parse_run_type : parser enum_run_type :=
  fun str =>
    let names := ("sp" ++ nl ++ "grad" ++ nl ++ "hess" ++ nl ++ "opt" ++ nl ++ "md")%string in
    let values := [RUN_TYPE_SP; RUN_TYPE_GRAD; RUN_TYPE_HESS; RUN_TYPE_OPT;
                   RUN_TYPE_MD] in
    parse_enum str names values.

Definition parse_coord : parser efp_coord_type :=
  fun str =>
    let names := ("points" ++ nl ++ "xyzabc" ++ nl ++ "rotmat")%string in
    let values := [EFP_COORD_TYPE_POINTS; EFP_COORD_TYPE_XYZABC;
                   EFP_COORD_TYPE_ROTMAT] in
    parse_enum str names values.

Definition parse_units : parser double :=
  fun str =>
    let names := ("bohr" ++ nl ++ "angs")%string in
    let values := [d_one; ddiv d_one BOHR_RADIUS] in
    parse_enum str names values.

Definition parse_elec_damp : parser efp_elec_damp :=
  fun str =>
    let names := ("screen" ++ nl ++ "overlap" ++ nl ++ "off")%string in
    let values := [EFP_ELEC_DAMP_SCREEN; EFP_ELEC_DAMP_OVERLAP;
                   EFP_ELEC_DAMP_OFF] in
    parse_enum str names values.

Definition parse_disp_damp : parser efp_disp_damp :=
  fun str =>
    let names := ("tt" ++ nl ++ "overlap" ++ nl ++ "off")%string in
    let values := [EFP_DISP_DAMP_TT; EFP_DISP_DAMP_OVERLAP;
                   EFP_DISP_DAMP_OFF] in
    parse_enum str names values.

Definition parse_pol_damp : parser efp_pol_damp :=
  fun str =>
    let names := ("tt" ++ nl ++ "off")%string in
    let values := [EFP_POL_DAMP_TT; EFP_POL_DAMP_OFF] in
    parse_enum str names values.

Definition parse_ensemble : parser enum_ensemble_type :=
  fun str =>
    let names := ("nve" ++ nl ++ "nvt")%string in
    let values := [ENSEMBLE_TYPE_NVE; ENSEMBLE_TYPE_NVT] in
    parse_enum str names values.

(* ------------------------------------------------------------------ *)
(** *** The terms option *)

Definition terms_list : list (string * Z) :=
  [ ("elec", EFP_TERM_ELEC); ("pol", EFP_TERM_POL);
    ("disp", EFP_TERM_DISP); ("xr", EFP_TERM_XR) ].

(** The [for] loop over [list]: the first keyword the cursor starts with. *)
Fixpoint match_term (l : list (string * Z)) (p : string) : option (string * Z) :=
  match l with
  | [] => None
  | (kw, value) :: l' =>
      if strneq kw p (strlen kw) then Some (kw, value) else match_term l' p
  end.

(** The [while] loop. Each round moves the cursor on, so the length of the
    line bounds the number of rounds. *)
Fixpoint parse_terms_loop (fuel : nat) (p : string) (bits : Z) : option (Z * string) :=
  match p with
  | EmptyString => Some (bits, p)
  | String _ _ =>
      match fuel with
      | O => None
      | S fuel' =>
          match match_term terms_list p with
          | None => None
          | Some (kw, value) =>
              parse_terms_loop fuel' (skip_spaces (advance (strlen kw) p))
                (Z.lor bits value)
          end
      end
  end.

Definition parse_terms : parser Z :=
  fun str =>
    match str with
    | None => None
    | Some s =>
        match parse_terms_loop (String.length s) s 0 with
        | None => None
        | Some (bits, p) => if (bits =? 0)%Z then None else Some (bits, p)
        end
    end.

(* ------------------------------------------------------------------ *)
(** *** The option table *)

Definition int_gt_zero (val : Z) : bool := (0 <? val)%Z.

Definition double_gt_zero (val : double) : bool := dgt val d_zero.

Record option_entry : Type := {
  ty : Type;
  entry_name : string;
  default_value : string;
  parse_fn : parser ty;
  check_fn : option (ty -> bool);
  member_offset : ty -> config -> config
}.

Definition entry {T : Type} (nm dflt : string) (p : parser T)
    (chk : option (T -> bool)) (m : T -> config -> config) : option_entry :=
  {| ty := T; entry_name := nm; default_value := dflt; parse_fn := p;
     check_fn := chk; member_offset := m |}.

Definition config_list : list option_entry :=
  [ entry "run_type"       "sp"               parse_run_type  None                  set_run_type;
    entry "coord"          "xyzabc"           parse_coord     None                  set_coord_type;
    entry "units"          "angs"             parse_units     None                  set_units_factor;
    entry "terms"          "elec pol disp xr" parse_terms     None                  set_terms;
    entry "elec_damp"      "screen"           parse_elec_damp None                  set_elec_damp;
    entry "disp_damp"      "tt"               parse_disp_damp None                  set_disp_damp;
    entry "pol_damp"       "tt"               parse_pol_damp  None                  set_pol_damp;
    entry "hess_delta"     "0.001"            parse_double    (Some double_gt_zero) set_hess_delta;
    entry "max_steps"      "100"              parse_int       (Some int_gt_zero)    set_max_steps;
    entry "print_step"     "1"                parse_int       (Some int_gt_zero)    set_print_step;
    entry "temperature"    "300.0"            parse_double    (Some double_gt_zero) set_target_temperature;
    entry "time_step"      "1.0"              parse_double    (Some double_gt_zero) set_time_step;
    entry "ensemble"       "nve"              parse_ensemble  None                  set_ensemble_type;
    entry "thermostat_tau" "1.0e3"            parse_double    (Some double_gt_zero) set_thermostat_tau;
    entry "opt_tol"        "1.0e-4"           parse_double    (Some double_gt_zero) set_opt_tol;
    entry "fraglib_path"   EFP_DATA_DIR       parse_string    None                  set_fraglib_path;
    entry "userlib_path"   "."                parse_string    None                  set_userlib_path ].

(* ------------------------------------------------------------------ *)
(** *** Unit conversion *)

(** [for (j = 0; j < n; j++) a[j] *= factor;] *)
Fixpoint scale (n : nat) (factor : double) (a : list double) : list double :=
  match n, a with
  | S n', x :: a' => dmul x factor :: scale n' factor a'
  | _, _ => a
  end.

Definition set_coord (a : list double) (f : frag) : frag :=
  {| name := name f; coord := a; vel := vel f |}.

Definition set_vel (a : list double) (f : frag) : frag :=
  {| name := name f; coord := coord f; vel := a |}.

Definition n_convert_of (t : efp_coord_type) : nat :=
  match t with
  | EFP_COORD_TYPE_XYZABC => 3
  | EFP_COORD_TYPE_POINTS => 9
  | EFP_COORD_TYPE_ROTMAT => 3
  end.

Definition convert_units (cfg : config) : config :=
  let cfg := set_time_step (dmul FS_TO_AU (time_step cfg)) cfg in
  let cfg := set_thermostat_tau (dmul FS_TO_AU (thermostat_tau cfg)) cfg in
  let n_convert := n_convert_of (coord_type cfg) in
  set_frags
    (map (fun f => set_coord (scale n_convert (units_factor cfg) (coord f)) f)
         (frags cfg))
    cfg.

(* ------------------------------------------------------------------ *)
(** *** Option lines *)

(** The string a cursor known not to be NULL points to. *)
Definition deref (p : option string) : string :=
  match p with
  | Some s => s
  | None => EmptyString
  end.

Fixpoint parse_field_in (l : list option_entry) (st : stream) (cfg : config)
    : result (stream * config) :=
  match l with
  | [] => Error UNKNOWN_OPTION_IN_INPUT_FILE
  | e :: l' =>
      let nm := entry_name e in
      if strneq nm (deref (ptr st)) (strlen nm) then
        let st := set_ptr st (Some (advance (strlen nm) (deref (ptr st)))) in
        let st := skip_space st in
        match parse_fn e (ptr st) with
        | None => Error (INCORRECT_VALUE_FOR_OPTION nm)
        | Some (v, rest) =>
            let st := set_ptr st (Some rest) in
            let cfg := member_offset e v cfg in
            match check_fn e with
            | Some check =>
                if check v then Ok (st, cfg)
                else Error (OPTION_VALUE_IS_OUT_OF_RANGE nm)
            | None => Ok (st, cfg)
            end
        end
      else parse_field_in l' st cfg
  end.

Definition parse_field (st : stream) (cfg : config) : result (stream * config) :=
  parse_field_in config_list st cfg.

(* ------------------------------------------------------------------ *)
(** *** Fragment blocks *)

Definition shape (t : efp_coord_type) : nat * nat :=
  match t with
  | EFP_COORD_TYPE_XYZABC => (1, 6)
  | EFP_COORD_TYPE_POINTS => (3, 3)
  | EFP_COORD_TYPE_ROTMAT => (4, 3)
  end%nat.

(** [n] calls of [parse_double] in a row, storing at [a + idx] onwards;
    nothing as soon as one of them fails. *)
Fixpoint read_doubles (n : nat) (p : option string) (idx : nat) (a : list double)
    : option (option string * list double) :=
  match n with
  | O => Some (p, a)
  | S n' =>
      match parse_double p with
      | None => None
      | Some (v, rest) => read_doubles n' (Some rest) (S idx) (store idx v a)
      end
  end.

Fixpoint parse_rows (n_rows n_cols : nat) (st : stream) (idx : nat)
    (a : list double) : result (stream * list double) :=
  match n_rows with
  | O => Ok (st, a)
  | S n_rows' =>
      match read_doubles n_cols (ptr st) idx a with
      | None => Error INCORRECT_FRAGMENT_COORDINATES_FORMAT
      | Some (p, a') =>
          parse_rows n_rows' n_cols (next_line (set_ptr st p)) (idx + n_cols) a'
      end
  end.

Definition parse_frag (st : stream) (coord_type : efp_coord_type)
    : result (stream * frag) :=
  let frag := frag_zero in
  match parse_string (ptr st) with
  | None => Error UNABLE_TO_READ_FRAGMENT_NAME
  | Some (nm, rest) =>
      let frag := {| name := Some nm; coord := coord frag; vel := vel frag |} in
      let st := next_line (set_ptr st (Some rest)) in
      let '(n_rows, n_cols) := shape coord_type in
      '(st, a) <- parse_rows n_rows n_cols st 0 (coord frag) ;;
      let frag := set_coord a frag in
      match ptr st with
      | None => Ok (st, frag)
      | Some _ =>
          let st := skip_space st in
          if strneq (deref (ptr st)) "velocity" (strlen "velocity") then
            let st := next_line st in
            match read_doubles 6 (ptr st) 0 (vel frag) with
            | None => Error INCORRECT_FRAGMENT_VELOCITIES_FORMAT
            | Some (p, v) => Ok (next_line (set_ptr st p), set_vel v frag)
            end
          else Ok (st, frag)
      end
  end.

(* ------------------------------------------------------------------ *)
(** *** The loader *)

(** [strncpy(buffer, src, sizeof(buffer))] with a buffer of 128 characters,
    read back as a string. A default of 128 characters or more would leave
    the buffer without its NUL; the table has none that long. *)
Definition strncpy_128 (src : string) : string := substring 0 128 src.

Fixpoint set_defaults_in (l : list option_entry) (cfg : config) : result config :=
  match l with
  | [] => Ok cfg
  | e :: l' =>
      let buffer := strncpy_128 (default_value e) in
      match parse_fn e (Some buffer) with
      | None => Error ASSERTION_FAILED
      | Some (v, _) => set_defaults_in l' (member_offset e v cfg)
      end
  end.

Definition set_config_defaults : result config :=
  set_defaults_in config_list config_zero.

(** One round of the [while] loop of [parse_config], entered with a line in
    the buffer. *)
Definition parse_config_step (st : stream) (cfg : config)
    : result (stream * config) :=
  if Ascii.eqb (peek (ptr st)) HASH then Ok (next_line st, cfg)
  else
    let st := skip_space st in
    if at_end (ptr st) then Ok (next_line st, cfg)
    else if strneq (deref (ptr st)) "fragment" (strlen "fragment") then
      let st := set_ptr st (Some (advance (strlen "fragment") (deref (ptr st)))) in
      '(st, frag) <- parse_frag st (coord_type cfg) ;;
      Ok (st, push_frag frag cfg)
    else
      '(st, cfg) <- parse_field st cfg ;;
      let st := skip_space st in
      if negb (at_end (ptr st))
      then Error ONLY_ONE_OPTION_PER_LINE_IS_ALLOWED
      else Ok (next_line st, cfg).

(** [while (stream.buffer) ...]. Each round reads at least one line. *)
Fixpoint parse_config_loop (fuel : nat) (st : stream) (cfg : config)
    : result (stream * config) :=
  match buffer st with
  | None => Ok (st, cfg)
  | Some _ =>
      match fuel with
      | O => Error OUT_OF_FUEL
      | S fuel' =>
          '(st, cfg) <- parse_config_step st cfg ;;
          parse_config_loop fuel' st cfg
      end
  end.

Definition stream_open (text : string) : stream :=
  {| buffer := None; ptr := None; inp := text |}.

(** The configuration as it stands when the last line is read, before the
    units are converted. *)
Definition read_config (file : option string) : result config :=
  cfg <- set_config_defaults ;;
  match file with
  | None => Error UNABLE_TO_OPEN_INPUT_FILE
  | Some text =>
      let st := next_line (stream_open text) in
      '(st, cfg) <- parse_config_loop (S (String.length text)) st cfg ;;
      if (n_frags cfg <? 1)%Z
      then Error AT_LEAST_ONE_FRAGMENT_MUST_BE_SPECIFIED
      else Ok cfg
  end.

(** [parse_config(path)], for the contents of the file at [path]; the file
    that cannot be opened is [None]. *)
Definition parse_config (file : option string) : result config :=
  cfg <- read_config file ;;
  Ok (convert_units cfg).

End Loader.

(* ================================================================== *)
(** ** A platform to run the loader on

    IEEE binary64 numbers and a [strtod] for decimal literals: white space,
    an optional sign, digits with an optional point, an optional exponent.
    The value is the digits as an integer times or divided by a power of
    ten, which is the correctly rounded one as long as the digits stay
    below 2^53 and the power of ten below 10^23. Hexadecimal literals,
    infinities and NaNs are not read. *)
Module Reference.

Fixpoint pow10 (n : nat) : float :=
  match n with
  | O => 1%float
  | S n' => PrimFloat.mul 10%float (pow10 n')
  end.

Definition sign_of (p : string) : bool * nat * string :=
  match p with
  | String "-"%char r => (true, 1%nat, r)
  | String "+"%char r => (false, 1%nat, r)
  | _ => (false, O, p)
  end.

(** The exponent part the cursor stands on: its value and its length,
    which is 0 when there is none. *)
Definition exponent (p : string) : Z * nat :=
  match p with
  | String c r =>
      if Ascii.eqb c "e"%char || Ascii.eqb c "E"%char then
        let '(neg, sg, r1) := sign_of r in
        let '(v, n) := Strtol.digits 0 r1 in
        match n with
        | O => (0%Z, O)
        | S _ => ((if neg then - v else v)%Z, (1 + sg + n)%nat)
        end
      else (0%Z, O)
  | EmptyString => (0%Z, O)
  end.

(** The value of a digit. *)
Definition digit_float (c : ascii) : float :=
  match c with
  | "1"%char => 1
  | "2"%char => 2
  | "3"%char => 3
  | "4"%char => 4
  | "5"%char => 5
  | "6"%char => 6
  | "7"%char => 7
  | "8"%char => 8
  | "9"%char => 9
  | _ => 0
  end%float.

(** The digits the cursor stands on, read as one integer that continues
    [acc], and how many they are. *)
Fixpoint mantissa (acc : float) (s : string) : float * nat :=
  match s with
  | String c r =>
      if isdigit c
      then let '(v, n) :=
             mantissa (PrimFloat.add (PrimFloat.mul 10%float acc) (digit_float c)) r
           in (v, S n)
      else (acc, O)
  | EmptyString => (acc, O)
  end.

Definition strtod_decimal (s : string) : float * nat :=
  let p := skip_spaces s in
  let ws := (String.length s - String.length p)%nat in
  let '(neg, sg, p1) := sign_of p in
  let '(ip, ni) := mantissa 0%float p1 in
  let p2 := advance ni p1 in
  let '(m, nf, np) :=
    match p2 with
    | String "."%char r =>
        let '(m, nf) := mantissa ip r in (m, nf, 1%nat)
    | _ => (ip, O, O)
    end in
  match (ni + nf)%nat with
  | O => (0%float, O)
  | S _ =>
      let '(e, ne) := exponent (advance (ni + np + nf) p1) in
      let e10 := (e - Z.of_nat nf)%Z in
      let a :=
        if (0 <=? e10)%Z
        then PrimFloat.mul m (pow10 (Z.to_nat e10))
        else PrimFloat.div m (pow10 (Z.to_nat (- e10))) in
      (if neg then PrimFloat.opp a else a, (ws + sg + ni + np + nf + ne)%nat)
  end.

(** The platform, for a fragment library installed in [dir]. *)
Definition platform (dir : string) : Platform :=
  {| double := float;
     dmul := PrimFloat.mul;
     ddiv := PrimFloat.div;
     dgt := fun x y => PrimFloat.ltb y x;
     d_zero := 0%float;
     d_one := 1%float;
     strtod := strtod_decimal;
     FS_TO_AU := PrimFloat.div 1%float (fst (strtod_decimal "2.41888432650212e-2"));
     BOHR_RADIUS := fst (strtod_decimal "0.52917721092");
     EFP_DATA_DIR := dir |}.

Definition std : Platform := platform "/usr/local/share/libefp".

End Reference.

Definition lines (l : list string) : string := String.concat nl l.

(* ================================================================== *)
(** * The vocabulary of the properties *)

(** [kw] is a literal prefix of [s]. *)
Fixpoint starts_with (kw s : string) : bool :=
  match kw, s with
  | EmptyString, _ => true
  | String a kw', String b s' => Ascii.eqb a b && starts_with kw' s'
  | String _ _, EmptyString => false
  end.

Section EnumVocabulary.

Context {V : Type}.

(** The entry the loop of [parse_enum] stops at: the first one whose name
    the input starts with. *)
Fixpoint first_match (table : list (string * V)) (s : string) : option (string * V) :=
  match table with
  | [] => None
  | (n, v) :: t => if strneq s n (strlen n) then Some (n, v) else first_match t s
  end.

(** The longest registered name that is a prefix of the input, as the
    description of the matcher has it; of two names of the same length the
    earlier one. *)
Fixpoint longest_match (table : list (string * V)) (s : string) : option (string * V) :=
  match table with
  | [] => None
  | (n, v) :: t =>
      let r := longest_match t s in
      if starts_with n s then
        match r with
        | Some (n', _) => if strlen n <? strlen n' then r else Some (n, v)
        | None => Some (n, v)
        end
      else r
  end.

(** What a matcher does with the entry it has chosen: the value goes to
    the output slot and the cursor moves past the name. *)
Definition take_entry (s : string) (e : option (string * V)) : option (V * string) :=
  match e with
  | Some (n, v) => Some (v, advance (strlen n) s)
  | None => None
  end.

(** No name of the table is a prefix of another one. *)
Fixpoint prefix_free (names : list string) : bool :=
  match names with
  | [] => true
  | n :: t =>
      forallb (fun m => negb (starts_with n m) && negb (starts_with m n)) t
      && prefix_free t
  end.

(** The loop of [parse_enum] over a table given as a list of entries. *)
Fixpoint enum_first (table : list (string * V)) (s : string) : option (V * string) :=
  match table with
  | [] => None
  | (n, v) :: t =>
      if strneq s n (strlen n) then Some (v, advance (strlen n) s)
      else enum_first t s
  end.

End EnumVocabulary.

Section Vocabulary.

Context `{P : Platform}.

Definition run_type_table : list (string * enum_run_type) :=
  [ ("sp", RUN_TYPE_SP); ("grad", RUN_TYPE_GRAD); ("hess", RUN_TYPE_HESS);
    ("opt", RUN_TYPE_OPT); ("md", RUN_TYPE_MD) ].

Definition coord_table : list (string * efp_coord_type) :=
  [ ("points", EFP_COORD_TYPE_POINTS); ("xyzabc", EFP_COORD_TYPE_XYZABC);
    ("rotmat", EFP_COORD_TYPE_ROTMAT) ].

Definition units_table : list (string * double) :=
  [ ("bohr", d_one); ("angs", ddiv d_one BOHR_RADIUS) ].

Definition elec_damp_table : list (string * efp_elec_damp) :=
  [ ("screen", EFP_ELEC_DAMP_SCREEN); ("overlap", EFP_ELEC_DAMP_OVERLAP);
    ("off", EFP_ELEC_DAMP_OFF) ].

Definition disp_damp_table : list (string * efp_disp_damp) :=
  [ ("tt", EFP_DISP_DAMP_TT); ("overlap", EFP_DISP_DAMP_OVERLAP);
    ("off", EFP_DISP_DAMP_OFF) ].

Definition pol_damp_table : list (string * efp_pol_damp) :=
  [ ("tt", EFP_POL_DAMP_TT); ("off", EFP_POL_DAMP_OFF) ].

Definition ensemble_table : list (string * enum_ensemble_type) :=
  [ ("nve", ENSEMBLE_TYPE_NVE); ("nvt", ENSEMBLE_TYPE_NVT) ].

(** [n] values can be read in a row from the cursor. *)
Fixpoint has_doubles (n : nat) (p : option string) : bool :=
  match n with
  | O => true
  | S n' =>
      match parse_double p with
      | None => false
      | Some (_, rest) => has_doubles n' (Some rest)
      end
  end.

(** The line the stream holds after [k] more calls of [next_line]. *)
Definition row (k : nat) (st : stream) : option string :=
  ptr (Nat.iter k next_line st).

(** What [parse_frag] does once the name is read. *)
Definition frag_after_name (st : stream) (coord_type : efp_coord_type)
    (nm : string) : result (stream * frag) :=
  '(st1, a) <- parse_rows (fst (shape coord_type)) (snd (shape coord_type))
                 (next_line st) 0 (repeat d_zero 12) ;;
  match ptr st1 with
  | None => Ok (st1, {| name := Some nm; coord := a; vel := repeat d_zero 6 |})
  | Some b =>
      if strneq (skip_spaces b) "velocity" (strlen "velocity") then
        match read_doubles 6 (ptr (next_line st1)) 0 (repeat d_zero 6) with
        | None => Error INCORRECT_FRAGMENT_VELOCITIES_FORMAT
        | Some (_, v) =>
            Ok (next_line (next_line st1),
                {| name := Some nm; coord := a; vel := v |})
        end
      else Ok (skip_space st1,
               {| name := Some nm; coord := a; vel := repeat d_zero 6 |})
  end.

Definition frag_line_with_values : string :=
  ("fragment " ++ dq ++ "a" ++ dq ++ " 0 0 0 0 0 0")%string.

(** The cursor stands on the start of a token or on the end of the line. *)
Definition at_token (s : string) : bool :=
  match s with
  | String c _ => negb (isspace c)
  | EmptyString => true
  end.

(** The sentences of the terms option as [parse_terms] reads them:
    keywords, each followed by white space or by nothing at all. [bits] is
    the union of the keywords' bits. *)
Inductive terms_sentence : string -> Z -> Prop :=
| sentence_end : terms_sentence EmptyString 0%Z
| sentence_keyword (kw : string) (value : Z) (ws rest : string) (bits : Z) :
    In (kw, value) terms_list ->
    blank ws = true ->
    at_token rest = true ->
    terms_sentence rest bits ->
    terms_sentence (kw ++ ws ++ rest) (Z.lor value bits).

(** The white-space separated tokens of a line. *)
Fixpoint words (s : string) : list string :=
  match s with
  | EmptyString => []
  | String c r =>
      if isspace c then words r
      else if at_token r && negb (at_end (Some r)) then
        match words r with
        | w :: t => String c w :: t
        | [] => [String c EmptyString]
        end
      else String c EmptyString :: words r
  end.

Definition keyword_bit (w : string) : option Z :=
  match find (fun e => String.eqb (fst e) w) terms_list with
  | Some (_, value) => Some value
  | None => None
  end.

(** The terms option as the description has it: the line is split at white
    space, each token has to be a keyword, and the set must not be empty. *)
Fixpoint union_of (ws : list string) : option Z :=
  match ws with
  | [] => Some 0%Z
  | w :: t =>
      match keyword_bit w, union_of t with
      | Some b, Some bits => Some (Z.lor b bits)
      | _, _ => None
      end
  end.

Definition terms_of_words (s : string) : option Z :=
  match union_of (words s) with
  | Some bits => if (bits =? 0)%Z then None else Some bits
  | None => None
  end.

(** The lines still to come, the one in the buffer included, are at most
    this many. *)
Definition measure (st : stream) : nat :=
  match buffer st with
  | None => 0
  | Some _ => S (String.length (inp st))
  end.

(** The invariant of the stream for a property [R] of the text still to be
    read and a property [Q] of the cursor. *)
Definition stream_inv (R Q : string -> Prop) (st : stream) : Prop :=
  R (inp st) /\ Q (deref (ptr st)).

(** The record [set_config_defaults] builds, given what [strtod] makes of
    the five numeric defaults and what [parse_string] makes of the
    directory of the fragment library. *)
Definition config_defaults (hess temp step tau tol : double) (dir : string) : config :=
  {| run_type := RUN_TYPE_SP;
     coord_type := EFP_COORD_TYPE_XYZABC;
     units_factor := ddiv d_one BOHR_RADIUS;
     terms := 15;
     elec_damp := EFP_ELEC_DAMP_SCREEN;
     disp_damp := EFP_DISP_DAMP_TT;
     pol_damp := EFP_POL_DAMP_TT;
     hess_delta := hess;
     max_steps := 100;
     print_step := 1;
     target_temperature := temp;
     time_step := step;
     ensemble_type := ENSEMBLE_TYPE_NVE;
     thermostat_tau := tau;
     opt_tol := tol;
     fraglib_path := Some dir;
     userlib_path := Some ".";
     n_frags := 0;
     frags := [] |}.

(** The lines of a file as [next_line] puts them into the buffer. *)
Fixpoint buffers (fuel : nat) (st : stream) : list string :=
  match buffer st with
  | None => []
  | Some b =>
      match fuel with
      | O => []
      | S fuel' => b :: buffers fuel' (next_line st)
      end
  end.

Definition file_buffers (text : string) : list string :=
  buffers (S (String.length text)) (next_line (stream_open text)).

(** No line of the file starts, after its leading white space, with the
    fragment keyword. *)
Definition fragment_free (text : string) : bool :=
  forallb (fun b => negb (strneq (skip_spaces b) "fragment" (strlen "fragment")))
          (file_buffers text).

(** The two paths of the record: free of upper-case letters, or, for the
    path of the fragment library, still the default. *)
Definition paths_lower (c : config) : Prop :=
  (exists s, userlib_path c = Some s /\ has_upper s = false)
  /\ (exists s, fraglib_path c = Some s
                /\ (has_upper s = false
                    \/ exists rest,
                         parse_string (Some (strncpy_128 EFP_DATA_DIR))
                         = Some (s, rest))).

(** What the reading loop keeps true of the record that unit conversion
    starts from. *)
Definition convertible (c : config) : Prop :=
  (units_factor c = d_one \/ units_factor c = ddiv d_one BOHR_RADIUS)
  /\ Forall (fun f => List.length (coord f) = 12 /\ List.length (vel f) = 6)
            (frags c).

(** [strtod] reads a number from the text and the number is positive. *)
Definition reads_positive (t : string) : bool :=
  match parse_double (Some t) with
  | Some (v, _) => double_gt_zero v
  | None => false
  end.

Definition numeric_defaults : list string :=
  ["0.001"; "300.0"; "1.0"; "1.0e3"; "1.0e-4"].

(** A directory name the default copy and [parse_string] take as it is
    written: shorter than the buffer of 128 characters, not blank, without
    double quotes. *)
Definition plain_directory (dir : string) : bool :=
  (String.length dir <? 128) && negb (blank dir) && negb (has_char DQUOTE dir).

End Vocabulary.

(** ** Inputs the loader is run on, on the reference platform *)

Definition std_load (text : string) : result config :=
  @parse_config Reference.std (Some text).

(** The configuration a file loads to. *)
Definition loaded (P : Platform) (text : string) : config :=
  match parse_config (Some text) with
  | Ok c => c
  | Error _ => config_zero
  end.

Definition file_time_step : string :=
  lines ["time_step 2.0"; "fragment a"; "1 2 3 4 5 6"].

Definition file_coord_after : string :=
  lines ["fragment a"; "1 2 3 4 5 6"; "coord points"].

Definition file_two_shapes : string :=
  lines ["coord xyzabc"; "units bohr"; "fragment a"; "1 2 3 4 5 6";
         "coord points"; "fragment b"; "1 2 3"; "4 5 6"; "7 8 9"].

Definition st_short_row : stream :=
  {| buffer := Some "fragment a"; ptr := Some " a"; inp := "1 2 3 4 5" |}.

Definition file_empty_name : string :=
  lines [("fragment " ++ dq ++ dq)%string; "0 0 0 0 0 0"].

Definition file_no_fragment : string :=
  lines ["max_steps 5"; "# no fragments here"; ""; "run_type md"].

Definition file_terms_joined : string :=
  lines ["terms elecdisp"; "fragment a"; "0 0 0 0 0 0"].

Definition st_trailing : stream := next_line (stream_open "max_steps 5 x").

Definition st_trailing_parsed : stream :=
  {| buffer := Some "max_steps 5 x"; ptr := Some " x"; inp := EmptyString |}.

Definition file_plain : string := lines ["fragment a"; "0 0 0 0 0 0"].

Definition file_upper : string :=
  lines ["USERLIB_PATH /Home/Me"; ("Fragment " ++ dq ++ "H2O" ++ dq)%string;
         "0 0 0 0 0 0"].

Definition st_extra_tokens : stream :=
  {| buffer := Some "fragment a"; ptr := Some " a";
     inp := lines ["1 2 3 4 5 6 junk"; "velocity"; "1 2 3 4 5 6 more";
                   "run_type md"] |}.

Definition st_after_rows : stream :=
  {| buffer := Some "velocity"; ptr := Some "velocity";
     inp := lines ["1 2 3 4 5 6 more"; "run_type md"] |}.

(* ------------------------------------------------------------------ *)
(** ** More vocabulary *)

(** The text of a file whose lines each end in a line feed. *)
Fixpoint text_of_lines (l : list string) : string :=
  match l with
  | [] => EmptyString
  | x :: t => (x ++ nl ++ text_of_lines t)%string
  end.

(** Does the string hold a white-space character? *)
Fixpoint has_space (s : string) : bool :=
  match s with
  | EmptyString => false
  | String c r => isspace c || has_space r
  end.

(** The cursor stands on white space or on the end of the line. *)
Definition at_space_or_end (s : string) : bool :=
  match s with
  | String c _ => isspace c
  | EmptyString => true
  end.


(** A line the reading loop passes over: a comment, with its [#] in the
    first column, or a line of white space only. *)
Definition skipped_line (c : string) : bool :=
  negb (has_char LF c) && (Ascii.eqb (peek (Some c)) HASH || blank c).

(** The cursor stands on a digit, after white space and a sign if there are
    any: what [strtol] needs to read a number. *)
Definition number_ahead (s : string) : bool :=
  match skip_spaces s with
  | String "-"%char (String c _) | String "+"%char (String c _) => isdigit c
  | String c _ => isdigit c
  | EmptyString => false
  end.

(** [rest] is [s] with some characters dropped from its front. *)
Definition is_suffix (rest s : string) : Prop :=
  exists n, n <= String.length s /\ rest = advance n s.

Section MoreVocabulary.

Context `{P : Platform}.

(** What an entry of the option table does with the text behind its name:
    parse, store, check. *)
Definition run_entry (e : option_entry) (st : stream) (t : string) (cfg : config)
    : result (stream * config) :=
  match parse_fn e (Some (skip_spaces t)) with
  | None => Error (INCORRECT_VALUE_FOR_OPTION (entry_name e))
  | Some (v, rest) =>
      let st' := {| buffer := buffer st; ptr := Some rest; inp := inp st |} in
      match check_fn e with
      | Some check =>
          if check v then Ok (st', member_offset e v cfg)
          else Error (OPTION_VALUE_IS_OUT_OF_RANGE (entry_name e))
      | None => Ok (st', member_offset e v cfg)
      end
  end.

(** The [n] values that [parse_double] reads in a row from the cursor, and
    the cursor behind them. *)
Fixpoint scan_doubles (n : nat) (p : option string)
    : option (list double * option string) :=
  match n with
  | O => Some ([], p)
  | S n' =>
      match parse_double p with
      | None => None
      | Some (v, rest) =>
          match scan_doubles n' (Some rest) with
          | None => None
          | Some (vs, p') => Some (v :: vs, p')
          end
      end
  end.

(** The values of [n_rows] rows of [n_cols] values, one row a line, from
    the line in the buffer on. *)
Fixpoint scan_rows (n_rows n_cols : nat) (st : stream) : option (list double) :=
  match n_rows with
  | O => Some []
  | S n_rows' =>
      match scan_doubles n_cols (ptr st), scan_rows n_rows' n_cols (next_line st) with
      | Some (vs, _), Some ws => Some (vs ++ ws)
      | _, _ => None
      end
  end.

(** The line [k] lines on starts, after its white space, with the
    velocity keyword. *)
Definition velocity_follows (k : nat) (st : stream) : bool :=
  match row k st with
  | Some b => strneq (skip_spaces b) "velocity" (strlen "velocity")
  | None => false
  end.

(** The outcome is one of the loader's own. *)
Definition returns {A : Type} (r : result A) : bool :=
  match r with
  | Error OUT_OF_FUEL => false
  | _ => true
  end.

End MoreVocabulary.


(** The entry of the option table for the number of steps. *)
Definition max_steps_entry `{P : Platform} : option_entry :=
  entry "max_steps" "100" parse_int (Some int_gt_zero) set_max_steps.

Section Members.

Context `{P : Platform}.

(** A member of [struct config] that a row of the option table names by
    its offset: the row, and what the member holds, which is nothing for a
    NULL string. *)
Record member : Type := {
  of_entry : option_entry;
  read : config -> option (ty of_entry)
}.

(** Row [i] of the option table. *)
Definition row_entry (i : nat) : option_entry :=
  nth i config_list (entry "" "" parse_int None set_max_steps).

Definition held {T : Type} (get : config -> T) : config -> option T :=
  fun c => Some (get c).

(** The [offsetof(struct config, ...)] column of the option table, row by
    row. *)
Definition members : list member :=
  [ {| of_entry := row_entry 0;  read := held run_type |};
    {| of_entry := row_entry 1;  read := held coord_type |};
    {| of_entry := row_entry 2;  read := held units_factor |};
    {| of_entry := row_entry 3;  read := held terms |};
    {| of_entry := row_entry 4;  read := held elec_damp |};
    {| of_entry := row_entry 5;  read := held disp_damp |};
    {| of_entry := row_entry 6;  read := held pol_damp |};
    {| of_entry := row_entry 7;  read := held hess_delta |};
    {| of_entry := row_entry 8;  read := held max_steps |};
    {| of_entry := row_entry 9;  read := held print_step |};
    {| of_entry := row_entry 10; read := held target_temperature |};
    {| of_entry := row_entry 11; read := held time_step |};
    {| of_entry := row_entry 12; read := held ensemble_type |};
    {| of_entry := row_entry 13; read := held thermostat_tau |};
    {| of_entry := row_entry 14; read := held opt_tol |};
    {| of_entry := row_entry 15; read := fraglib_path |};
    {| of_entry := row_entry 16; read := userlib_path |} ].

Definition max_steps_member : member :=
  {| of_entry := row_entry 8; read := held max_steps |}.

Definition time_step_member : member :=
  {| of_entry := row_entry 11; read := held time_step |}.

End Members.

Definition st_max_steps_zero : stream :=
  {| buffer := Some "max_steps 0"; ptr := Some "max_steps 0"; inp := EmptyString |}.

Definition st_indented_comment : stream := next_line (stream_open "  # water").

Definition file_commented : string :=
  (text_of_lines ["# Water"; "   "; "#"] ++ file_plain)%string.

(* ================================================================== *)
(** * Properties *)

(** ** Strings *)

Lemma starts_with_append (kw s : string) :
  starts_with kw s = true <-> exists r, s = (kw ++ r)%string.
Proof.
  revert s; induction kw as [|a kw IH]; intros s; simpl.
  - split; [intros _; now exists s | reflexivity].
  - destruct s as [|b s].
    + split; [discriminate | intros [r Hr]; discriminate].
    + rewrite andb_true_iff, Ascii.eqb_eq, IH. split.
      * intros [-> [r ->]]. now exists r.
      * intros [r Hr]. injection Hr as -> ->. split; [reflexivity | now exists r].
Qed.

Lemma strneq_sym (a b : string) (n : nat) : strneq a b n = strneq b a n.
Proof.
  revert a b; induction n as [|n IH]; intros a b; simpl; [reflexivity|].
  destruct a, b; try reflexivity.
  now rewrite IH, Ascii.eqb_sym.
Qed.

Lemma strneq_starts_with (kw s : string) :
  strneq kw s (strlen kw) = starts_with kw s.
Proof.
  revert s; induction kw as [|a kw IH]; intros s; simpl; [reflexivity|].
  destruct s; [reflexivity|]. now rewrite IH.
Qed.

Lemma strneq_starts_with' (kw s : string) :
  strneq s kw (strlen kw) = starts_with kw s.
Proof. now rewrite strneq_sym, strneq_starts_with. Qed.

Lemma advance_append (kw r : string) : advance (strlen kw) (kw ++ r) = r.
Proof. induction kw; simpl; [now destruct r | assumption]. Qed.

Lemma starts_with_length (kw s : string) :
  starts_with kw s = true -> strlen kw <= strlen s.
Proof.
  revert s; induction kw as [|a kw IH]; intros s; simpl; [lia|].
  destruct s as [|b s]; [discriminate|].
  intros H. apply andb_true_iff in H as [_ H]. apply IH in H. simpl. lia.
Qed.

(** Two prefixes of one string: the shorter is a prefix of the longer. *)
Lemma starts_with_chain (a b s : string) :
  starts_with a s = true -> starts_with b s = true ->
  strlen a <= strlen b -> starts_with a b = true.
Proof.
  revert b s; induction a as [|x a IH]; intros b s Ha Hb Hl; [reflexivity|].
  destruct b as [|y b]; [simpl in Hl; lia|].
  destruct s as [|z s]; [discriminate|]. simpl in *.
  apply andb_true_iff in Ha as [Ha1 Ha2]. apply andb_true_iff in Hb as [Hb1 Hb2].
  apply Ascii.eqb_eq in Ha1, Hb1. subst. rewrite Ascii.eqb_refl. simpl.
  apply (IH b s); auto. lia.
Qed.

(* ================================================================== *)
(** ** The enumeration matcher *)

Section EnumTables.

Context {V : Type}.

Lemma longest_match_sound (table : list (string * V)) s n v :
  longest_match table s = Some (n, v) ->
  In (n, v) table /\ starts_with n s = true.
Proof.
  revert n v; induction table as [|[m w] t IH]; intros n v; simpl; [discriminate|].
  destruct (starts_with m s) eqn:Hm.
  - destruct (longest_match t s) as [[n' v']|] eqn:Hr.
    + destruct (strlen m <? strlen n').
      * intros H. destruct (IH _ _ H). auto.
      * intros H; injection H as <- <-. auto.
    + intros H; injection H as <- <-. auto.
  - intros H. destruct (IH _ _ H). auto.
Qed.

Lemma longest_match_longest (table : list (string * V)) s n v :
  longest_match table s = Some (n, v) ->
  forall m w, In (m, w) table -> starts_with m s = true -> strlen m <= strlen n.
Proof.
  revert n v; induction table as [|[k u] t IH]; intros n v; simpl; [discriminate|].
  destruct (starts_with k s) eqn:Hk.
  - destruct (longest_match t s) as [[n' v']|] eqn:Hr.
    + destruct (strlen k <? strlen n') eqn:Hlt.
      * intros H; injection H as <- <-. intros m w [E|Hin] Hm.
        -- injection E as <- <-. apply Nat.ltb_lt in Hlt. lia.
        -- eapply IH; eauto.
      * intros H; injection H as <- <-. intros m w [E|Hin] Hm.
        -- injection E as <- <-. lia.
        -- apply Nat.ltb_ge in Hlt. specialize (IH _ _ eq_refl _ _ Hin Hm). lia.
    + intros H; injection H as <- <-. intros m w [E|Hin] Hm.
      * injection E as <- <-. lia.
      * exfalso. clear IH. revert Hr Hin Hm.
        induction t as [|[k' u'] t IHt]; simpl; [tauto|].
        intros Hr [E|Hin] Hm.
        -- injection E as -> ->. rewrite Hm in Hr.
           destruct (longest_match t s) as [[? ?]|]; [destruct (_ <? _)|]; discriminate.
        -- destruct (starts_with k' s).
           ++ destruct (longest_match t s) as [[? ?]|]; [destruct (_ <? _)|]; try discriminate.
              all: eapply IHt; eauto.
           ++ eapply IHt; eauto.
  - intros H m w [E|Hin] Hm.
    + injection E as <- <-. congruence.
    + eapply IH; eauto.
Qed.

Lemma longest_match_none (table : list (string * V)) s :
  longest_match table s = None ->
  forall m w, In (m, w) table -> starts_with m s = false.
Proof.
  induction table as [|[k u] t IH]; simpl; [tauto|].
  destruct (starts_with k s) eqn:Hk.
  - destruct (longest_match t s) as [[? ?]|]; [destruct (_ <? _)|]; discriminate.
  - intros Hr m w [E|Hin]; [injection E as <- <-; assumption | eauto].
Qed.

(** On a table whose names are prefix-free the first match is the longest
    one: it is the only one. *)
Lemma first_match_longest (table : list (string * V)) s :
  prefix_free (map fst table) = true ->
  first_match table s = longest_match table s.
Proof.
  induction table as [|[n v] t IH]; simpl; [reflexivity|].
  intros H. apply andb_true_iff in H as [Hn Ht].
  rewrite strneq_starts_with'. rewrite (IH Ht).
  destruct (starts_with n s) eqn:Hs; [|reflexivity].
  destruct (longest_match t s) as [[n' v']|] eqn:Hr; [|reflexivity].
  exfalso. apply longest_match_sound in Hr as [Hin Hs'].
  rewrite forallb_forall in Hn.
  specialize (Hn n' (in_map fst _ _ Hin)). simpl in Hn.
  apply andb_true_iff in Hn as [H1 H2].
  apply negb_true_iff in H1, H2.
  destruct (Nat.le_ge_cases (strlen n) (strlen n')) as [L|L].
  - rewrite (starts_with_chain n n' s) in H1; auto; discriminate.
  - rewrite (starts_with_chain n' n s) in H2; auto; discriminate.
Qed.

End EnumTables.

(** The loop over the names of a table ends before the fuel it is given
    does: each round leaves a shorter table. *)
Lemma strchr_LF_length (p q : string) :
  strchr_LF p = Some q -> String.length q <= String.length p.
Proof.
  induction p as [|c r IH]; simpl; [discriminate|].
  destruct (Ascii.eqb c LF).
  - intros H; injection H as <-. simpl. lia.
  - intros H. apply IH in H. lia.
Qed.

Lemma strchr_LF_shorter (p0 q : string) :
  strchr_LF (enum_entry p0) = Some q -> String.length q < String.length p0.
Proof.
  destruct p0 as [|c r]; simpl; [discriminate|].
  destruct (Ascii.eqb c LF) eqn:Hc.
  - intros H. apply strchr_LF_length in H. lia.
  - simpl. rewrite Hc. intros H. apply strchr_LF_length in H. lia.
Qed.

Lemma parse_enum_loop_fuel {V : Type} (fuel fuel' : nat) (str : string)
    (p : option string) (values : list V) :
  String.length (match p with Some p0 => p0 | None => EmptyString end) < fuel ->
  String.length (match p with Some p0 => p0 | None => EmptyString end) < fuel' ->
  parse_enum_loop fuel str p values = parse_enum_loop fuel' str p values.
Proof.
  revert fuel' p values; induction fuel as [|fuel IH]; intros fuel' p values H H';
    [lia|].
  destruct fuel' as [|fuel']; [lia|].
  destruct p as [p0|]; [|reflexivity]. cbn [parse_enum_loop].
  destruct (strneq str (enum_entry p0) (name_len (enum_entry p0))); [reflexivity|].
  destruct (strchr_LF (enum_entry p0)) as [q|] eqn:Hq.
  - apply strchr_LF_shorter in Hq. apply IH; lia.
  - now destruct fuel, fuel'.
Qed.

Section EnumFirst.

Context {V : Type}.

Lemma enum_first_take (table : list (string * V)) s :
  enum_first table s = take_entry s (first_match table s).
Proof.
  induction table as [|[n v] t IH]; simpl; [reflexivity|].
  now destruct (strneq s n (strlen n)).
Qed.

Lemma enum_first_longest (table : list (string * V)) s :
  prefix_free (map fst table) = true ->
  enum_first table s = take_entry s (longest_match table s).
Proof. intros H. now rewrite enum_first_take, first_match_longest. Qed.

End EnumFirst.

Section LoaderFacts.

Context `{P : Platform}.

Lemma parse_run_type_first s : parse_run_type (Some s) = enum_first run_type_table s.
Proof. reflexivity. Qed.

Lemma parse_coord_first s : parse_coord (Some s) = enum_first coord_table s.
Proof. reflexivity. Qed.

Lemma parse_units_first s : parse_units (Some s) = enum_first units_table s.
Proof. reflexivity. Qed.

Lemma parse_elec_damp_first s : parse_elec_damp (Some s) = enum_first elec_damp_table s.
Proof. reflexivity. Qed.

Lemma parse_disp_damp_first s : parse_disp_damp (Some s) = enum_first disp_damp_table s.
Proof. reflexivity. Qed.

Lemma parse_pol_damp_first s : parse_pol_damp (Some s) = enum_first pol_damp_table s.
Proof. reflexivity. Qed.

Lemma parse_ensemble_first s : parse_ensemble (Some s) = enum_first ensemble_table s.
Proof. reflexivity. Qed.

(** C6. For each of the seven name tables of the program (run type,
    coordinate representation, units, the three damping choices, ensemble)
    and every input, the enumeration matcher picks the longest registered
    name that is a literal prefix of the input, writes that entry's value
    and moves the cursor past the name and no further; it fails when no
    name is a prefix. *)
Theorem parse_enum_longest_prefix (s : string) :
  parse_run_type (Some s) = take_entry s (longest_match run_type_table s)
  /\ parse_coord (Some s) = take_entry s (longest_match coord_table s)
  /\ parse_units (Some s) = take_entry s (longest_match units_table s)
  /\ parse_elec_damp (Some s) = take_entry s (longest_match elec_damp_table s)
  /\ parse_disp_damp (Some s) = take_entry s (longest_match disp_damp_table s)
  /\ parse_pol_damp (Some s) = take_entry s (longest_match pol_damp_table s)
  /\ parse_ensemble (Some s) = take_entry s (longest_match ensemble_table s).
Proof.
  rewrite parse_run_type_first, parse_coord_first, parse_units_first,
    parse_elec_damp_first, parse_disp_damp_first, parse_pol_damp_first,
    parse_ensemble_first.
  repeat split; apply enum_first_longest; reflexivity.
Qed.

(* ------------------------------------------------------------------ *)
(** ** The stream *)

Lemma next_line_set_ptr (st : stream) (p : option string) :
  next_line (set_ptr st p) = next_line st.
Proof. reflexivity. Qed.

Lemma next_line_skip_space (st : stream) : next_line (skip_space st) = next_line st.
Proof. reflexivity. Qed.

Lemma at_end_skip_spaces (s : string) : at_end (Some (skip_spaces s)) = blank s.
Proof.
  induction s as [|c r IH]; simpl; [reflexivity|].
  destruct (isspace c); simpl; [assumption | reflexivity].
Qed.

Lemma at_end_skip_space (st : stream) :
  at_end (ptr (skip_space st)) = blank (deref (ptr st)).
Proof.
  unfold skip_space; simpl. destruct (ptr st) as [s|]; simpl; [|reflexivity].
  apply at_end_skip_spaces.
Qed.

(* ------------------------------------------------------------------ *)
(** ** Option lines *)

(** C8. On a line that reaches the option branch and whose option is
    matched, parsed and validated ([parse_field] returns), the round of the
    loader fails with the only-one-option-per-line error exactly when
    something other than white space is left on the line; when only white
    space is left, the record with the option's value is kept and the
    loader goes on with the next line. *)
Theorem option_line_trailing (st : stream) (cfg : config) (st1 : stream) (cfg1 : config) :
  Ascii.eqb (peek (ptr st)) HASH = false ->
  at_end (ptr (skip_space st)) = false ->
  strneq (deref (ptr (skip_space st))) "fragment" (strlen "fragment") = false ->
  parse_field (skip_space st) cfg = Ok (st1, cfg1) ->
  (parse_config_step st cfg = Error ONLY_ONE_OPTION_PER_LINE_IS_ALLOWED
   <-> blank (deref (ptr st1)) = false)
  /\ (blank (deref (ptr st1)) = true ->
      parse_config_step st cfg = Ok (next_line st1, cfg1)
      /\ forall fuel, buffer st <> None ->
           parse_config_loop (S fuel) st cfg
           = parse_config_loop fuel (next_line st1) cfg1).
Proof.
  intros Hhash Hend Hfrag Hfield.
  assert (Hstep : parse_config_step st cfg
                  = if blank (deref (ptr st1))
                    then Ok (next_line st1, cfg1)
                    else Error ONLY_ONE_OPTION_PER_LINE_IS_ALLOWED).
  { unfold parse_config_step. rewrite Hhash, Hend, Hfrag, Hfield.
    cbv beta iota zeta delta [bind]. rewrite at_end_skip_space. now destruct (blank (deref (ptr st1))). }
  rewrite Hstep. split.
  - destruct (blank (deref (ptr st1))); split; congruence.
  - intros Hb. rewrite Hb. split; [reflexivity|].
    intros fuel Hbuf. simpl. destruct (buffer st); [|congruence].
    rewrite Hstep, Hb. reflexivity.
Qed.

(* ------------------------------------------------------------------ *)
(** ** Fragment blocks *)

Lemma read_doubles_has (n : nat) (p : option string) (idx : nat) (a : list double) :
  has_doubles n p = match read_doubles n p idx a with Some _ => true | None => false end.
Proof.
  revert p idx a; induction n as [|n IH]; intros p idx a; simpl; [reflexivity|].
  destruct (parse_double p) as [[v rest]|]; [apply IH | reflexivity].
Qed.

Lemma row_next_line (k : nat) (st : stream) : row k (next_line st) = row (S k) st.
Proof. unfold row. now rewrite Nat.iter_succ_r. Qed.

Lemma forallb_seq_shift (f : nat -> bool) (n s : nat) :
  forallb (fun k => f (S k)) (seq s n) = forallb f (seq (S s) n).
Proof.
  revert s; induction n as [|n IH]; intros s; simpl; [reflexivity|].
  now rewrite IH.
Qed.

(** The coordinate block is read when each of its rows holds the values of
    a row, and only then. *)
Lemma parse_rows_ok (n_rows n_cols : nat) (st : stream) (idx : nat) (a : list double) :
  is_ok (parse_rows n_rows n_cols st idx a)
  = forallb (fun k => has_doubles n_cols (row k st)) (seq 0 n_rows).
Proof.
  revert st idx a; induction n_rows as [|n IH]; intros st idx a; [reflexivity|].
  cbn [parse_rows seq forallb].
  change (row 0 st) with (ptr st).
  rewrite (read_doubles_has n_cols (ptr st) idx a).
  destruct (read_doubles n_cols (ptr st) idx a) as [[p a']|]; [|reflexivity].
  rewrite next_line_set_ptr, IH. simpl.
  rewrite <- (forallb_seq_shift (fun k => has_doubles n_cols (row k st))).
  clear. generalize 0. induction n as [|n IH]; intros s; simpl; [reflexivity|].
  now rewrite row_next_line, IH.
Qed.

Lemma parse_rows_error (n_rows n_cols : nat) (st : stream) (idx : nat)
    (a : list double) (e : error) :
  parse_rows n_rows n_cols st idx a = Error e ->
  e = INCORRECT_FRAGMENT_COORDINATES_FORMAT.
Proof.
  revert st idx a; induction n_rows as [|n IH]; intros st idx a; simpl; [discriminate|].
  destruct (read_doubles n_cols (ptr st) idx a) as [[p a']|]; [apply IH | congruence].
Qed.

Lemma parse_rows_stream (n_rows n_cols : nat) (st : stream) (idx : nat)
    (a : list double) (st' : stream) (a' : list double) :
  parse_rows n_rows n_cols st idx a = Ok (st', a') ->
  st' = Nat.iter n_rows next_line st.
Proof.
  revert st idx a; induction n_rows as [|n IH]; intros st idx a; simpl.
  - congruence.
  - destruct (read_doubles n_cols (ptr st) idx a) as [[p b]|]; [|discriminate].
    rewrite next_line_set_ptr. intros H. apply IH in H.
    now rewrite <- Nat.iter_succ_r in H.
Qed.

Lemma parse_frag_name (st : stream) (ct : efp_coord_type) :
  parse_frag st ct
  = match parse_string (ptr st) with
    | None => Error UNABLE_TO_READ_FRAGMENT_NAME
    | Some (nm, _) => frag_after_name st ct nm
    end.
Proof.
  unfold parse_frag, frag_after_name.
  destruct (parse_string (ptr st)) as [[nm rest]|]; [|reflexivity].
  rewrite next_line_set_ptr.
  destruct ct; cbv beta iota zeta delta [shape fst snd bind];
    (destruct (parse_rows _ _ (next_line st) 0 _) as [[st1 a]|e]; [|reflexivity]);
    (destruct (ptr st1) as [b|] eqn:Hp; [|reflexivity]);
    unfold skip_space; rewrite Hp; simpl ptr; simpl deref;
    (destruct (strneq (skip_spaces b) _ _); [|reflexivity]);
    rewrite next_line_set_ptr; simpl vel;
    now destruct (read_doubles 6 _ 0 _) as [[p v]|].
Qed.

(** C2, as the loader has it. The name of a fragment is read from the
    keyword line and what follows the name on that line is dropped; the
    coordinate block is read from the next line on, one row of six values
    for xyzabc, three rows of three for points, four rows of three for
    rotmat, the representation being the one the record holds when the
    keyword line is read; a required row that lacks a value, or is not
    there, ends the load with the incorrect-coordinates error; and the
    keyword line that carries six values, with nothing after it, ends the
    load with that error. *)
Theorem fragment_block_shape :
  (forall st cfg,
     Ascii.eqb (peek (ptr st)) HASH = false ->
     at_end (ptr (skip_space st)) = false ->
     strneq (deref (ptr (skip_space st))) "fragment" (strlen "fragment") = true ->
     parse_config_step st cfg
     = ('(st', f) <- parse_frag
                      (set_ptr st (Some (advance (strlen "fragment")
                                           (skip_spaces (deref (ptr st))))))
                      (coord_type cfg) ;;
        Ok (st', push_frag f cfg)))
  /\ shape EFP_COORD_TYPE_XYZABC = (1, 6)
  /\ shape EFP_COORD_TYPE_POINTS = (3, 3)
  /\ shape EFP_COORD_TYPE_ROTMAT = (4, 3)
  /\ (forall st ct st' f,
        parse_frag st ct = Ok (st', f) ->
        exists nm rest st1,
          parse_string (ptr st) = Some (nm, rest)
          /\ name f = Some nm
          /\ parse_rows (fst (shape ct)) (snd (shape ct)) (next_line st) 0
               (repeat d_zero 12) = Ok (st1, coord f)
          /\ forallb (fun k => has_doubles (snd (shape ct)) (row (S k) st))
               (seq 0 (fst (shape ct))) = true)
  /\ (forall st ct nm rest k,
        parse_string (ptr st) = Some (nm, rest) ->
        k < fst (shape ct) ->
        has_doubles (snd (shape ct)) (row (S k) st) = false ->
        parse_frag st ct = Error INCORRECT_FRAGMENT_COORDINATES_FORMAT)
  /\ (forall st cfg,
        ptr st = Some frag_line_with_values ->
        inp st = EmptyString ->
        parse_config_step st cfg = Error INCORRECT_FRAGMENT_COORDINATES_FORMAT).
Proof.
  split; [|split; [reflexivity|split; [reflexivity|split; [reflexivity|split; [|split]]]]].
  - intros st cfg Hhash Hend Hfrag.
    unfold parse_config_step. rewrite Hhash, Hend, Hfrag.
    unfold skip_space. simpl ptr. destruct (ptr st); reflexivity.
  - intros st ct st' f H. rewrite parse_frag_name in H.
    destruct (parse_string (ptr st)) as [[nm rest]|]; [|discriminate].
    exists nm, rest. unfold frag_after_name in H.
    pose proof (parse_rows_ok (fst (shape ct)) (snd (shape ct)) (next_line st) 0
                  (repeat d_zero 12)) as Hok.
    destruct (parse_rows _ _ (next_line st) 0 _) as [[st1 a]|e]; [|discriminate].
    exists st1. cbv beta iota zeta delta [bind] in H.
    assert (Hf : name f = Some nm /\ coord f = a).
    { destruct (ptr st1) as [b|].
      - destruct (strneq (skip_spaces b) _ _).
        + destruct (read_doubles 6 _ 0 _) as [[p v]|]; [|discriminate].
          injection H as _ <-. auto.
        + injection H as _ <-. auto.
      - injection H as _ <-. auto. }
    destruct Hf as [Hn Hc]. rewrite Hc. repeat split; auto.
    simpl in Hok. rewrite Hok. symmetry.
    clear. generalize 0. induction (fst (shape ct)) as [|n IH]; intros s; simpl; [reflexivity|].
    now rewrite row_next_line, IH.
  - intros st ct nm rest k Hname Hk Hrow.
    rewrite parse_frag_name, Hname. unfold frag_after_name.
    pose proof (parse_rows_ok (fst (shape ct)) (snd (shape ct)) (next_line st) 0
                  (repeat d_zero 12)) as Hok.
    destruct (parse_rows _ _ (next_line st) 0 _) as [[st1 a]|e] eqn:Hr.
    + exfalso. simpl in Hok. symmetry in Hok. rewrite forallb_forall in Hok.
      specialize (Hok k). rewrite row_next_line, Hrow in Hok.
      assert (In k (seq 0 (fst (shape ct)))) by (apply in_seq; lia).
      specialize (Hok H). discriminate.
    + apply parse_rows_error in Hr. subst e. reflexivity.
  - intros [b p i] cfg Hp Hi. simpl in Hp, Hi. subst p i.
    unfold parse_config_step. cbn. destruct (coord_type cfg); reflexivity.
Qed.

(** C10. What is left of a coordinate row once its values are read, and of
    the velocity row once its six values are read, is not looked at: the
    block is read whenever each row holds its values, the loader goes to
    the next line with whatever remainder [p] the row has, and the values
    stored are the same. *)
Theorem extra_tokens_ignored :
  (forall n_rows n_cols st idx a p a',
     read_doubles n_cols (ptr st) idx a = Some (p, a') ->
     parse_rows (S n_rows) n_cols st idx a
     = parse_rows n_rows n_cols (next_line st) (idx + n_cols) a')
  /\ (forall n_rows n_cols st idx a,
        is_ok (parse_rows n_rows n_cols st idx a)
        = forallb (fun k => has_doubles n_cols (row k st)) (seq 0 n_rows))
  /\ (forall st ct nm rest st1 a b p v,
        parse_string (ptr st) = Some (nm, rest) ->
        parse_rows (fst (shape ct)) (snd (shape ct)) (next_line st) 0
          (repeat d_zero 12) = Ok (st1, a) ->
        ptr st1 = Some b ->
        strneq (skip_spaces b) "velocity" (strlen "velocity") = true ->
        read_doubles 6 (ptr (next_line st1)) 0 (repeat d_zero 6) = Some (p, v) ->
        parse_frag st ct
        = Ok (next_line (next_line st1),
              {| name := Some nm; coord := a; vel := v |})).
Proof.
  split; [|split].
  - intros n_rows n_cols st idx a p a' H. simpl. rewrite H. reflexivity.
  - apply parse_rows_ok.
  - intros st ct nm rest st1 a b p v Hname Hrows Hb Hvel Hv.
    rewrite parse_frag_name, Hname. unfold frag_after_name.
    rewrite Hrows. cbv beta iota zeta delta [bind]. rewrite Hb, Hvel, Hv.
    reflexivity.
Qed.

(* ------------------------------------------------------------------ *)
(** ** The terms option *)

Lemma length_append (a b : string) :
  String.length (a ++ b) = String.length a + String.length b.
Proof. induction a as [|c a IH]; simpl; [reflexivity | now rewrite IH]. Qed.

Lemma skip_spaces_split (s : string) :
  exists ws, s = (ws ++ skip_spaces s)%string /\ blank ws = true
             /\ at_token (skip_spaces s) = true.
Proof.
  induction s as [|c r IH]; simpl.
  - now exists EmptyString.
  - destruct (isspace c) eqn:Hc.
    + destruct IH as (ws & E & B & T). exists (String c ws). simpl.
      rewrite Hc, B. repeat split; auto. now rewrite <- E.
    + exists EmptyString. simpl. rewrite Hc. auto.
Qed.

Lemma skip_spaces_blank (ws rest : string) :
  blank ws = true -> at_token rest = true -> skip_spaces (ws ++ rest) = rest.
Proof.
  intros B T. induction ws as [|c ws IH]; simpl in *.
  - destruct rest as [|c r]; [reflexivity|]. simpl in T.
    apply negb_true_iff in T. simpl. now rewrite T.
  - apply andb_true_iff in B as [Hc B]. rewrite Hc. auto.
Qed.

Lemma match_term_sound (l : list (string * Z)) (p kw : string) (value : Z) :
  match_term l p = Some (kw, value) ->
  In (kw, value) l /\ starts_with kw p = true.
Proof.
  induction l as [|[k v] l IH]; simpl; [discriminate|].
  rewrite strneq_starts_with. destruct (starts_with k p) eqn:Hk.
  - intros H; injection H as <- <-. auto.
  - intros H. destruct (IH H). auto.
Qed.

Lemma match_term_keyword (kw : string) (value : Z) (t : string) :
  In (kw, value) terms_list ->
  match_term terms_list (kw ++ t) = Some (kw, value) /\ 1 <= strlen kw.
Proof.
  intros [E|[E|[E|[E|[]]]]]; injection E as <- <-; split; (reflexivity || (simpl; lia)).
Qed.

Lemma parse_terms_loop_sound (fuel : nat) (p : string) (acc bits : Z) (rest : string) :
  parse_terms_loop fuel p acc = Some (bits, rest) ->
  rest = EmptyString /\ exists b, terms_sentence p b /\ bits = Z.lor acc b.
Proof.
  revert p acc; induction fuel as [|fuel IH]; intros p acc.
  - destruct p; simpl; [|intros H; discriminate H].
    intros H; injection H as <- <-. split; [reflexivity|].
    exists 0%Z. split; [constructor | now rewrite Z.lor_0_r].
  - destruct p as [|c r]; cbn [parse_terms_loop].
    + intros H; injection H as <- <-. split; [reflexivity|].
      exists 0%Z. split; [constructor | now rewrite Z.lor_0_r].
    + destruct (match_term terms_list (String c r)) as [[kw value]|] eqn:Hm;
        [|intros H; discriminate H].
      apply match_term_sound in Hm as [Hin Hpre].
      apply starts_with_append in Hpre as [t Ht]. rewrite Ht.
      rewrite advance_append.
      destruct (skip_spaces_split t) as (ws & Et & Bw & Tk).
      intros H. apply IH in H as (-> & b & Hs & ->).
      split; [reflexivity|]. exists (Z.lor value b). split.
      * rewrite Et. now constructor.
      * now rewrite Z.lor_assoc.
Qed.

Lemma parse_terms_loop_complete (p : string) (b : Z) :
  terms_sentence p b ->
  forall fuel acc, String.length p <= fuel ->
    parse_terms_loop fuel p acc = Some (Z.lor acc b, EmptyString).
Proof.
  induction 1 as [|kw value ws rest bits Hin Hb Ht Hs IH]; intros fuel acc Hf.
  - destruct fuel; simpl; now rewrite Z.lor_0_r.
  - destruct (match_term_keyword kw value (ws ++ rest) Hin) as [Hm Hl].
    rewrite !length_append in Hf. unfold strlen in Hl.
    destruct fuel as [|fuel]; [lia|].
    destruct (kw ++ ws ++ rest)%string as [|c r] eqn:E.
    { destruct kw; [simpl in Hl; lia | discriminate]. }
    cbn [parse_terms_loop].
    rewrite Hm, <- E, advance_append, (skip_spaces_blank ws rest Hb Ht).
    rewrite IH by lia. now rewrite Z.lor_assoc.
Qed.

(** C5, as the parser has it. The terms parser accepts exactly the lines
    made of keywords from elec, pol, disp and xr, each followed by white
    space or directly by the next keyword; it reads to the end of the line
    and returns the union of the keywords' bits; it fails when the cursor
    stands on something that is no keyword and when the set is empty. The
    line [elec disp] gives electrostatics and dispersion and neither
    polarization nor exchange-repulsion, and the option line
    [terms elec foo] ends the load. *)
Theorem parse_terms_grammar :
  (forall s bits rest,
     parse_terms (Some s) = Some (bits, rest)
     <-> (rest = EmptyString /\ bits <> 0%Z /\ terms_sentence s bits))
  /\ parse_terms (Some "elec disp")
     = Some (Z.lor EFP_TERM_ELEC EFP_TERM_DISP, EmptyString)
  /\ Z.land (Z.lor EFP_TERM_ELEC EFP_TERM_DISP) EFP_TERM_POL = 0%Z
  /\ Z.land (Z.lor EFP_TERM_ELEC EFP_TERM_DISP) EFP_TERM_XR = 0%Z
  /\ parse_terms (Some "elec foo") = None
  /\ (forall st cfg,
        ptr st = Some "terms elec foo" ->
        parse_config_step st cfg = Error (INCORRECT_VALUE_FOR_OPTION "terms")).
Proof.
  split; [|repeat split].
  - intros s bits rest. unfold parse_terms. split.
    + destruct (parse_terms_loop (String.length s) s 0) as [[b p]|] eqn:Hl;
        [|discriminate].
      destruct (b =? 0)%Z eqn:Hz; [discriminate|].
      intros H; injection H as <- <-.
      apply parse_terms_loop_sound in Hl as (-> & b' & Hs & ->).
      rewrite Z.lor_0_l in *. apply Z.eqb_neq in Hz. auto.
    + intros (-> & Hz & Hs).
      rewrite (parse_terms_loop_complete s bits Hs) by lia.
      rewrite Z.lor_0_l. apply Z.eqb_neq in Hz. now rewrite Hz.
  - intros [b p i] cfg Hp. simpl in Hp. subst p. reflexivity.
Qed.

(* ------------------------------------------------------------------ *)
(** ** What a round of the loader does to the stream and to the record *)

Lemma parse_field_in_inv (l : list option_entry) (st : stream) (cfg : config)
    (st' : stream) (cfg' : config) :
  parse_field_in l st cfg = Ok (st', cfg') ->
  exists e v rest,
    In e l
    /\ parse_fn e (Some (skip_spaces (advance (strlen (entry_name e))
                                        (deref (ptr st))))) = Some (v, rest)
    /\ cfg' = member_offset e v cfg
    /\ st' = {| buffer := buffer st; ptr := Some rest; inp := inp st |}.
Proof.
  induction l as [|e l IH]; simpl; [discriminate|].
  destruct (strneq (entry_name e) (deref (ptr st)) (strlen (entry_name e))).
  - unfold skip_space, set_ptr. simpl.
    destruct (parse_fn e _) as [[v rest]|] eqn:Hp; [|discriminate].
    intros H. exists e, v, rest.
    destruct (check_fn e) as [chk|]; [destruct (chk v); [|discriminate]|];
      injection H as <- <-; auto.
  - intros H. destruct (IH H) as (e' & v & rest & Hin & Hp & Hc & Hs).
    exists e', v, rest. auto.
Qed.

Lemma store_length (idx : nat) (v : double) (a : list double) :
  List.length (store idx v a) = List.length a.
Proof.
  revert idx; induction a as [|x a IH]; intros idx; destruct idx; simpl;
    try reflexivity.
  now rewrite IH.
Qed.

Lemma read_doubles_length (n : nat) (p : option string) (idx : nat)
    (a : list double) (p' : option string) (a' : list double) :
  read_doubles n p idx a = Some (p', a') -> List.length a' = List.length a.
Proof.
  revert p idx a; induction n as [|n IH]; intros p idx a; simpl.
  - intros H; injection H as <- <-. reflexivity.
  - destruct (parse_double p) as [[v rest]|]; [|discriminate].
    intros H. apply IH in H. now rewrite store_length in H.
Qed.

Lemma parse_rows_length (n_rows n_cols : nat) (st : stream) (idx : nat)
    (a : list double) (st' : stream) (a' : list double) :
  parse_rows n_rows n_cols st idx a = Ok (st', a') ->
  List.length a' = List.length a.
Proof.
  revert st idx a; induction n_rows as [|n IH]; intros st idx a; simpl.
  - intros H; injection H as <- <-. reflexivity.
  - destruct (read_doubles n_cols (ptr st) idx a) as [[p b]|] eqn:Hd; [|discriminate].
    intros H. apply IH in H. apply read_doubles_length in Hd. congruence.
Qed.

Lemma parse_frag_inv (st : stream) (ct : efp_coord_type) (st' : stream) (f : frag) :
  parse_frag st ct = Ok (st', f) ->
  exists nm rest k,
    parse_string (ptr st) = Some (nm, rest)
    /\ name f = Some nm
    /\ List.length (coord f) = 12 /\ List.length (vel f) = 6
    /\ 1 <= k
    /\ (st' = Nat.iter k next_line st \/ st' = skip_space (Nat.iter k next_line st)).
Proof.
  rewrite parse_frag_name.
  destruct (parse_string (ptr st)) as [[nm rest]|]; [|discriminate].
  unfold frag_after_name.
  destruct (parse_rows _ _ (next_line st) 0 _) as [[st1 a]|e] eqn:Hr; [|discriminate].
  pose proof (parse_rows_length _ _ _ _ _ _ _ Hr) as Hla.
  rewrite repeat_length in Hla.
  apply parse_rows_stream in Hr. rewrite <- Nat.iter_succ_r in Hr.
  cbv beta iota zeta delta [bind]. intros H. exists nm, rest.
  destruct (ptr st1) as [b|].
  - destruct (strneq (skip_spaces b) _ _).
    + destruct (read_doubles 6 _ 0 _) as [[p v]|] eqn:Hv; [|discriminate].
      apply read_doubles_length in Hv. rewrite repeat_length in Hv.
      injection H as <- <-. exists (S (S (S (fst (shape ct))))).
      repeat split; auto; try lia; try (left; now rewrite Hr).
    + injection H as <- <-. exists (S (fst (shape ct))).
      repeat split; auto; try lia; try (right; now rewrite Hr).
  - injection H as <- <-. exists (S (fst (shape ct))).
    repeat split; auto; try lia; try (left; now rewrite Hr).
Qed.

(** The rounds of the loader, by what the line is. *)
Lemma parse_config_step_inv (st : stream) (cfg : config) (st' : stream) (cfg' : config) :
  parse_config_step st cfg = Ok (st', cfg') ->
  (st' = next_line st /\ cfg' = cfg)
  \/ (exists f nm rest k,
        strneq (skip_spaces (deref (ptr st))) "fragment" (strlen "fragment") = true
        /\ parse_string
             (Some (advance (strlen "fragment") (skip_spaces (deref (ptr st)))))
           = Some (nm, rest)
        /\ name f = Some nm
        /\ List.length (coord f) = 12 /\ List.length (vel f) = 6
        /\ cfg' = push_frag f cfg /\ 1 <= k
        /\ (st' = Nat.iter k next_line st
            \/ st' = skip_space (Nat.iter k next_line st)))
  \/ (exists e v rest,
        In e config_list
        /\ parse_fn e (Some (skip_spaces
                               (advance (strlen (entry_name e))
                                  (skip_spaces (deref (ptr st)))))) = Some (v, rest)
        /\ cfg' = member_offset e v cfg
        /\ st' = next_line st).
Proof.
  unfold parse_config_step.
  destruct (Ascii.eqb (peek (ptr st)) HASH).
  { intros H; injection H as <- <-. auto. }
  destruct (at_end (ptr (skip_space st))).
  { intros H; injection H as <- <-. auto. }
  assert (Hd : deref (ptr (skip_space st)) = skip_spaces (deref (ptr st))).
  { unfold skip_space; simpl. now destruct (ptr st). }
  rewrite Hd.
  destruct (strneq (skip_spaces (deref (ptr st))) "fragment" (strlen "fragment")) eqn:Hf.
  - destruct (parse_frag _ (coord_type cfg)) as [[st1 f]|e] eqn:Hp; [|discriminate].
    cbv beta iota zeta delta [bind]. intros H; injection H as <- <-.
    apply parse_frag_inv in Hp as (nm & rest & k & Hn & Hnm & Hlc & Hlv & Hk & Hs).
    right; left. exists f, nm, rest, k. simpl in Hn. repeat split; auto.
    clear - Hs Hk. destruct k as [|k]; [lia|].
    rewrite !Nat.iter_succ_r in Hs. rewrite !Nat.iter_succ_r. exact Hs.
  - unfold parse_field.
    destruct (parse_field_in config_list (skip_space st) cfg) as [[st1 cfg1]|e] eqn:Hp;
      [|discriminate].
    cbv beta iota zeta delta [bind].
    destruct (negb (at_end (ptr (skip_space st1)))); [discriminate|].
    intros H; injection H as <- <-.
    apply parse_field_in_inv in Hp as (e & v & rest & Hin & Hv & Hc & Hs).
    right; right. exists e, v, rest. rewrite Hd in Hv. repeat split; auto.
    rewrite Hs. reflexivity.
Qed.

(** A round fails with a message of parse.c. *)
Lemma parse_config_step_error (st : stream) (cfg : config) :
  parse_config_step st cfg <> Error OUT_OF_FUEL
  /\ parse_config_step st cfg <> Error ASSERTION_FAILED
  /\ parse_config_step st cfg <> Error AT_LEAST_ONE_FRAGMENT_MUST_BE_SPECIFIED.
Proof.
  assert (Hfield : forall l s c,
            parse_field_in l s c <> Error OUT_OF_FUEL
            /\ parse_field_in l s c <> Error ASSERTION_FAILED
            /\ parse_field_in l s c <> Error AT_LEAST_ONE_FRAGMENT_MUST_BE_SPECIFIED).
  { induction l as [|e l IH]; intros s c; simpl; [repeat split; discriminate|].
    destruct (strneq _ _ _); [|apply IH].
    destruct (parse_fn e _) as [[v rest]|]; [|repeat split; discriminate].
    destruct (check_fn e) as [chk|]; [destruct (chk v)|]; repeat split; discriminate. }
  unfold parse_config_step.
  destruct (Ascii.eqb _ _); [repeat split; discriminate|].
  destruct (at_end _); [repeat split; discriminate|].
  destruct (strneq _ _ _).
  - rewrite parse_frag_name.
    destruct (parse_string _) as [[nm rest]|]; [|repeat split; discriminate].
    unfold frag_after_name.
    destruct (parse_rows _ _ _ 0 _) as [[st1 a]|e] eqn:Hr.
    + cbv beta iota zeta delta [bind].
      destruct (ptr st1); [destruct (strneq _ _ _);
        [destruct (read_doubles 6 _ 0 _) as [[p v]|]|]|];
        repeat split; discriminate.
    + apply parse_rows_error in Hr. subst e. repeat split; discriminate.
  - unfold parse_field. specialize (Hfield config_list (skip_space st) cfg).
    destruct (parse_field_in _ _ _) as [[st1 cfg1]|e].
    + cbv beta iota zeta delta [bind].
      destruct (negb _); repeat split; discriminate.
    + exact Hfield.
Qed.

(* ------------------------------------------------------------------ *)
(** ** The reading loop ends *)

Lemma getline_length (s : string) :
  String.length (snd (getline s)) <= Nat.pred (String.length s).
Proof.
  induction s as [|c r IH]; simpl; [lia|].
  destruct (Ascii.eqb c LF); simpl; [lia|].
  destruct (getline r) as [l r']. simpl in *. lia.
Qed.

Lemma next_line_measure (st : stream) :
  measure (next_line st) <= String.length (inp st)
  /\ String.length (inp (next_line st)) <= String.length (inp st).
Proof.
  unfold next_line, read_line, measure.
  destruct (inp st) as [|c r] eqn:E; simpl; [lia|].
  pose proof (getline_length (String c r)) as H. simpl in H.
  destruct (Ascii.eqb c LF); simpl in *; [lia|].
  destruct (getline r) as [l r']. simpl in *. lia.
Qed.

Lemma iter_next_line_measure (k : nat) (st : stream) :
  1 <= k ->
  measure (Nat.iter k next_line st) <= String.length (inp st)
  /\ String.length (inp (Nat.iter k next_line st)) <= String.length (inp st).
Proof.
  induction k as [|k IH]; [lia|]. intros _. simpl.
  destruct k as [|k].
  - simpl. apply next_line_measure.
  - destruct IH as [_ IH]; [lia|].
    pose proof (next_line_measure (Nat.iter (S k) next_line st)). lia.
Qed.

Lemma parse_config_step_measure (st : stream) (cfg : config) (st' : stream)
    (cfg' : config) :
  parse_config_step st cfg = Ok (st', cfg') ->
  measure st' <= String.length (inp st).
Proof.
  intros H. apply parse_config_step_inv in H
    as [[-> _]|[(f & nm & rest & k & _ & _ & _ & _ & _ & _ & Hk & [-> | ->])
               |(e & v & rest & _ & _ & _ & ->)]].
  - apply next_line_measure.
  - now apply iter_next_line_measure.
  - change (measure (skip_space (Nat.iter k next_line st)))
      with (measure (Nat.iter k next_line st)).
    now apply iter_next_line_measure.
  - apply next_line_measure.
Qed.

(** With as much fuel as there are lines, the loop does not run out of it,
    and more fuel does not change what it returns. *)
Lemma parse_config_loop_fuel (fuel : nat) (st : stream) (cfg : config) :
  measure st <= fuel ->
  parse_config_loop fuel st cfg <> Error OUT_OF_FUEL
  /\ forall fuel', measure st <= fuel' ->
       parse_config_loop fuel' st cfg = parse_config_loop fuel st cfg.
Proof.
  revert st cfg; induction fuel as [|fuel IH]; intros st cfg Hm.
  - unfold measure in Hm. destruct (buffer st) eqn:Hb; [lia|].
    simpl. rewrite Hb. split; [discriminate|].
    intros [|f] _; simpl; now rewrite Hb.
  - simpl. unfold measure in Hm. destruct (buffer st) eqn:Hb.
    + pose proof (parse_config_step_error st cfg) as (He & _).
      destruct (parse_config_step st cfg) as [[st' cfg']|e] eqn:Hs.
      * pose proof (parse_config_step_measure _ _ _ _ Hs) as Hms.
        cbv beta iota zeta delta [bind].
        destruct (IH st' cfg') as [H1 H2]; [lia|]. split; [assumption|].
        intros [|f] Hf; [unfold measure in Hf; rewrite Hb in Hf; lia|].
        simpl. rewrite Hb, Hs. unfold measure in Hf. rewrite Hb in Hf.
        cbv beta iota zeta delta [bind]. apply H2. lia.
      * split; [simpl; congruence|].
        intros [|f] Hf; [unfold measure in Hf; rewrite Hb in Hf; lia|].
        simpl. now rewrite Hb, Hs.
    + split; [discriminate|]. intros [|f] _; simpl; now rewrite Hb.
Qed.

(* ------------------------------------------------------------------ *)
(** ** Invariants of the reading loop

    [R] is a property of the text still to be read, [Q] one of the lines
    and cursors cut from it, [J] one of the record. *)

Section LoopInvariant.

Variables (R Q : string -> Prop) (J : config -> Prop).

Hypothesis Q_empty : Q EmptyString.
Hypothesis Q_line : forall input l r,
  R input -> getline input = (l, r) -> R r /\ Q (lower (c_str l)).
Hypothesis Q_skip : forall s, Q s -> Q (skip_spaces s).
Hypothesis Q_advance : forall n s, Q s -> Q (advance n s).
Hypothesis J_frag : forall s nm rest f cfg,
  Q s -> parse_string (Some s) = Some (nm, rest) -> name f = Some nm ->
  List.length (coord f) = 12 -> List.length (vel f) = 6 ->
  J cfg -> J (push_frag f cfg).
Hypothesis J_field : forall e s v rest cfg,
  In e config_list -> Q s -> parse_fn e (Some s) = Some (v, rest) ->
  J cfg -> J (member_offset e v cfg).

Lemma stream_inv_next_line (st : stream) : R (inp st) -> stream_inv R Q (next_line st).
Proof.
  intros HR. unfold stream_inv, next_line, read_line.
  destruct (inp st) as [|c r] eqn:E; simpl; [auto|].
  destruct (getline (String c r)) as [l r'] eqn:G.
  destruct (Q_line _ _ _ HR G). simpl in G. rewrite G. simpl. auto.
Qed.

Lemma stream_inv_iter (k : nat) (st : stream) :
  R (inp st) -> 1 <= k -> stream_inv R Q (Nat.iter k next_line st).
Proof.
  intros HR. induction k as [|k IH]; [lia|]. intros _. simpl.
  apply stream_inv_next_line.
  destruct k as [|k]; [exact HR|]. apply IH. lia.
Qed.

Lemma stream_inv_skip_space (st : stream) : stream_inv R Q st -> stream_inv R Q (skip_space st).
Proof.
  intros [HR HQ]. split; [exact HR|].
  unfold skip_space; simpl. destruct (ptr st); simpl in *; auto.
Qed.

Lemma parse_config_step_inv_preserved (st : stream) (cfg : config) (st' : stream)
    (cfg' : config) :
  stream_inv R Q st -> J cfg ->
  parse_config_step st cfg = Ok (st', cfg') ->
  stream_inv R Q st' /\ J cfg'.
Proof.
  intros [HR HQ] HJ H. apply parse_config_step_inv in H
    as [[-> ->]|[(f & nm & rest & k & _ & Hn & Hf & Hlc & Hlv & -> & Hk & Hs)
                |(e & v & rest & Hin & Hv & -> & ->)]].
  - split; [now apply stream_inv_next_line | assumption].
  - split.
    + destruct Hs as [-> | ->];
        [|apply stream_inv_skip_space]; now apply stream_inv_iter.
    + eapply J_frag; [| exact Hn | exact Hf | exact Hlc | exact Hlv | exact HJ].
      apply Q_advance, Q_skip, HQ.
  - split; [now apply stream_inv_next_line|].
    eapply J_field; [exact Hin | | exact Hv | exact HJ].
    apply Q_skip, Q_advance, Q_skip, HQ.
Qed.

Lemma parse_config_loop_inv (fuel : nat) (st : stream) (cfg : config)
    (st' : stream) (cfg' : config) :
  stream_inv R Q st -> J cfg ->
  parse_config_loop fuel st cfg = Ok (st', cfg') -> J cfg'.
Proof.
  revert st cfg; induction fuel as [|fuel IH]; intros st cfg HS HJ; simpl.
  - destruct (buffer st); [discriminate|]. intros H; injection H as <- <-. exact HJ.
  - destruct (buffer st); [|intros H; injection H as <- <-; exact HJ].
    destruct (parse_config_step st cfg) as [[st1 cfg1]|e] eqn:Hs; [|discriminate].
    cbv beta iota zeta delta [bind].
    destruct (parse_config_step_inv_preserved _ _ _ _ HS HJ Hs). now apply IH.
Qed.

Lemma read_config_inv (text : string) (cfg : config) :
  R text ->
  (forall c0, set_config_defaults = Ok c0 -> J c0) ->
  read_config (Some text) = Ok cfg -> J cfg.
Proof.
  intros HR H0. unfold read_config.
  destruct set_config_defaults as [c0|e]; [|discriminate].
  cbv beta iota zeta delta [bind].
  destruct (parse_config_loop _ _ c0) as [[st' cfg']|e] eqn:Hl; [|discriminate].
  destruct (n_frags cfg' <? 1)%Z; [discriminate|].
  intros H; injection H as <-.
  eapply parse_config_loop_inv; eauto.
  apply stream_inv_next_line. exact HR.
Qed.

End LoopInvariant.

(* ------------------------------------------------------------------ *)
(** ** The defaults *)

Lemma set_config_defaults_eq :
  set_config_defaults
  = match parse_double (Some "0.001"), parse_double (Some "300.0"),
          parse_double (Some "1.0"), parse_double (Some "1.0e3"),
          parse_double (Some "1.0e-4"),
          parse_string (Some (strncpy_128 EFP_DATA_DIR)) with
    | Some (hess, _), Some (temp, _), Some (step, _), Some (tau, _),
      Some (tol, _), Some (dir, _) =>
        Ok (config_defaults hess temp step tau tol dir)
    | _, _, _, _, _, _ => Error ASSERTION_FAILED
    end.
Proof.
  unfold set_config_defaults, config_list, entry.
  cbn [set_defaults_in default_value parse_fn member_offset ty].
  change (strncpy_128 "sp") with "sp".
  change (strncpy_128 "xyzabc") with "xyzabc".
  change (strncpy_128 "angs") with "angs".
  change (strncpy_128 "elec pol disp xr") with "elec pol disp xr".
  change (strncpy_128 "screen") with "screen".
  change (strncpy_128 "tt") with "tt".
  change (strncpy_128 "0.001") with "0.001".
  change (strncpy_128 "100") with "100".
  change (strncpy_128 "1") with "1".
  change (strncpy_128 "300.0") with "300.0".
  change (strncpy_128 "1.0") with "1.0".
  change (strncpy_128 "nve") with "nve".
  change (strncpy_128 "1.0e3") with "1.0e3".
  change (strncpy_128 "1.0e-4") with "1.0e-4".
  change (strncpy_128 ".") with ".".
  change (parse_run_type (Some "sp")) with (Some (RUN_TYPE_SP, EmptyString)).
  change (parse_coord (Some "xyzabc")) with (Some (EFP_COORD_TYPE_XYZABC, EmptyString)).
  change (parse_units (Some "angs")) with (Some (ddiv d_one BOHR_RADIUS, EmptyString)).
  change (parse_terms (Some "elec pol disp xr")) with (Some (15%Z, EmptyString)).
  change (parse_elec_damp (Some "screen")) with (Some (EFP_ELEC_DAMP_SCREEN, EmptyString)).
  change (parse_disp_damp (Some "tt")) with (Some (EFP_DISP_DAMP_TT, EmptyString)).
  change (parse_pol_damp (Some "tt")) with (Some (EFP_POL_DAMP_TT, EmptyString)).
  change (parse_int (Some "100")) with (Some (100%Z, EmptyString)).
  change (parse_int (Some "1")) with (Some (1%Z, EmptyString)).
  change (parse_ensemble (Some "nve")) with (Some (ENSEMBLE_TYPE_NVE, EmptyString)).
  change (parse_string (Some ".")) with (Some (".", EmptyString)).
  cbv beta iota.
  destruct (parse_double (Some "0.001")) as [[hess r1]|]; [|reflexivity].
  destruct (parse_double (Some "300.0")) as [[temp r2]|]; [|reflexivity].
  destruct (parse_double (Some "1.0")) as [[step r3]|]; [|reflexivity].
  destruct (parse_double (Some "1.0e3")) as [[tau r4]|]; [|reflexivity].
  destruct (parse_double (Some "1.0e-4")) as [[tol r5]|]; [|reflexivity].
  destruct (parse_string (Some (strncpy_128 EFP_DATA_DIR))) as [[dir r6]|];
    reflexivity.
Qed.

(* ------------------------------------------------------------------ *)
(** ** At least one fragment *)

Ltac each_entry H :=
  unfold config_list, entry in H;
  repeat (destruct H as [<-|H]); [..|destruct H].

Lemma option_entry_frags (e : option_entry) :
  In e config_list ->
  forall (v : ty e) (c : config),
    frags (member_offset e v c) = frags c
    /\ n_frags (member_offset e v c) = n_frags c.
Proof.
  intros H. each_entry H; intros v c; destruct c; split; reflexivity.
Qed.

Lemma set_config_defaults_frags (c0 : config) :
  set_config_defaults = Ok c0 -> frags c0 = [] /\ n_frags c0 = 0%Z.
Proof.
  rewrite set_config_defaults_eq.
  destruct (parse_double (Some "0.001")) as [[? ?]|]; [|discriminate].
  destruct (parse_double (Some "300.0")) as [[? ?]|]; [|discriminate].
  destruct (parse_double (Some "1.0")) as [[? ?]|]; [|discriminate].
  destruct (parse_double (Some "1.0e3")) as [[? ?]|]; [|discriminate].
  destruct (parse_double (Some "1.0e-4")) as [[? ?]|]; [|discriminate].
  destruct (parse_string (Some (strncpy_128 EFP_DATA_DIR))) as [[? ?]|];
    [|discriminate].
  intros H; injection H as <-. split; reflexivity.
Qed.

Lemma push_frag_frags (f : frag) (c : config) :
  frags (push_frag f c) = frags c ++ [f]
  /\ n_frags (push_frag f c) = (n_frags c + 1)%Z.
Proof. destruct c; split; reflexivity. Qed.

(** [n_frags] is the number of fragments in the array. *)
Lemma read_config_n_frags (text : string) (cfg : config) :
  read_config (Some text) = Ok cfg ->
  n_frags cfg = Z.of_nat (List.length (frags cfg)).
Proof.
  apply (read_config_inv (fun _ => True) (fun _ => True)
           (fun c => n_frags c = Z.of_nat (List.length (frags c)))); auto.
  - intros s nm rest f c _ _ _ _ _ Hc.
    destruct (push_frag_frags f c) as [-> ->].
    rewrite length_app, Hc. simpl. lia.
  - intros e s v rest c Hin _ _ Hc.
    destruct (option_entry_frags e Hin v c) as [-> ->]. exact Hc.
  - intros c0 H0. apply set_config_defaults_frags in H0 as [-> ->]. reflexivity.
Qed.

Lemma next_line_fresh (st : stream) : ptr (next_line st) = buffer (next_line st).
Proof.
  unfold next_line. destruct (read_line (inp st)) as [[l r]|]; reflexivity.
Qed.

Lemma parse_config_loop_fragment_free (fuel : nat) (st : stream) (cfg : config)
    (st' : stream) (cfg' : config) :
  ptr st = buffer st ->
  forallb (fun b => negb (strneq (skip_spaces b) "fragment" (strlen "fragment")))
          (buffers fuel st) = true ->
  parse_config_loop fuel st cfg = Ok (st', cfg') ->
  n_frags cfg' = n_frags cfg.
Proof.
  revert st cfg; induction fuel as [|fuel IH]; intros st cfg Hp Hb; simpl.
  - destruct (buffer st); [discriminate|]. intros H; injection H as <- <-. reflexivity.
  - simpl in Hb. destruct (buffer st) as [b|] eqn:Eb;
      [|intros H; injection H as <- <-; reflexivity].
    simpl in Hb. apply andb_true_iff in Hb as [Hb1 Hb2].
    destruct (parse_config_step st cfg) as [[st1 cfg1]|e] eqn:Hs; [|discriminate].
    cbv beta iota zeta delta [bind]. intros Hl.
    apply parse_config_step_inv in Hs
      as [[-> ->]|[(f & nm & rest & k & Hf & _)|(e & v & rest & Hin & _ & -> & ->)]].
    + apply (IH _ _ (next_line_fresh st) Hb2 Hl).
    + rewrite Hp in Hf. simpl in Hf. rewrite Hf in Hb1. discriminate.
    + rewrite (IH _ _ (next_line_fresh st) Hb2 Hl).
      apply (option_entry_frags e Hin).
Qed.

Lemma convert_units_frags (c : config) :
  n_frags (convert_units c) = n_frags c
  /\ frags (convert_units c)
     = map (fun f => set_coord (scale (n_convert_of (coord_type c))
                                      (units_factor c) (coord f)) f)
           (frags c).
Proof. destruct c; split; reflexivity. Qed.

Lemma parse_config_read (file : option string) (cfg : config) :
  parse_config file = Ok cfg ->
  exists cfg0, read_config file = Ok cfg0 /\ cfg = convert_units cfg0
               /\ (1 <= n_frags cfg0)%Z.
Proof.
  unfold parse_config. destruct (read_config file) as [cfg0|e] eqn:Hr; [|discriminate].
  cbv beta iota zeta delta [bind]. intros H; injection H as <-.
  exists cfg0. repeat split.
  unfold read_config in Hr.
  destruct set_config_defaults as [c0|]; [|discriminate].
  cbv beta iota zeta delta [bind] in Hr.
  destruct file as [text|]; [|discriminate].
  destruct (parse_config_loop _ _ c0) as [[st' cfg']|]; [|discriminate].
  destruct (n_frags cfg' <? 1)%Z eqn:Hn; [discriminate|].
  injection Hr as <-. apply Z.ltb_ge in Hn. exact Hn.
Qed.

(** C4. A configuration the loader returns has at least one fragment. A
    file without a line that starts with the fragment keyword is never
    loaded, and when each of its lines is accepted, so that the reading
    loop comes to the end of the file, the load ends with the
    at-least-one-fragment error, however many option lines there are. *)
Theorem at_least_one_fragment :
  (forall file cfg,
     parse_config file = Ok cfg ->
     (1 <= n_frags cfg)%Z
     /\ n_frags cfg = Z.of_nat (List.length (frags cfg))
     /\ 1 <= List.length (frags cfg))
  /\ (forall text,
        fragment_free text = true ->
        is_ok (parse_config (Some text)) = false)
  /\ (forall text c0 st cfg,
        fragment_free text = true ->
        set_config_defaults = Ok c0 ->
        parse_config_loop (S (String.length text)) (next_line (stream_open text)) c0
        = Ok (st, cfg) ->
        parse_config (Some text) = Error AT_LEAST_ONE_FRAGMENT_MUST_BE_SPECIFIED).
Proof.
  assert (Hfree : forall text c0 st cfg,
            fragment_free text = true ->
            set_config_defaults = Ok c0 ->
            parse_config_loop (S (String.length text))
              (next_line (stream_open text)) c0 = Ok (st, cfg) ->
            n_frags cfg = 0%Z).
  { intros text c0 st cfg Hf H0 Hl.
    apply parse_config_loop_fragment_free in Hl;
      [|apply next_line_fresh|exact Hf].
    apply set_config_defaults_frags in H0 as [_ H0]. congruence. }
  split; [|split].
  - intros file cfg H.
    apply parse_config_read in H as (cfg0 & Hr & -> & Hn).
    destruct (convert_units_frags cfg0) as [-> ->].
    rewrite length_map.
    destruct file as [text|]; [|unfold read_config in Hr;
      destruct set_config_defaults; discriminate].
    apply read_config_n_frags in Hr. lia.
  - intros text Hf.
    destruct (parse_config (Some text)) as [cfg|e] eqn:H; [|reflexivity].
    exfalso. apply parse_config_read in H as (cfg0 & Hr & _ & Hn).
    unfold read_config in Hr.
    destruct set_config_defaults as [c0|] eqn:H0; [|discriminate].
    cbv beta iota zeta delta [bind] in Hr.
    destruct (parse_config_loop _ _ c0) as [[st' cfg']|] eqn:Hl; [|discriminate].
    destruct (n_frags cfg' <? 1)%Z; [discriminate|]. injection Hr as <-.
    rewrite (Hfree _ _ _ _ Hf eq_refl Hl) in Hn. lia.
  - intros text c0 st cfg Hf H0 Hl.
    unfold parse_config, read_config. rewrite H0.
    cbv beta iota zeta delta [bind]. rewrite Hl.
    rewrite (Hfree _ _ _ _ Hf H0 Hl). reflexivity.
Qed.

(* ------------------------------------------------------------------ *)
(** ** The strings of the record *)

Lemma tolower_dquote (c : ascii) : Ascii.eqb (tolower c) DQUOTE = Ascii.eqb c DQUOTE.
Proof. destruct c as [[] [] [] [] [] [] [] []]; reflexivity. Qed.

Lemma isupper_tolower (c : ascii) : isupper (tolower c) = false.
Proof. destruct c as [[] [] [] [] [] [] [] []]; reflexivity. Qed.

Lemma has_upper_lower (s : string) : has_upper (lower s) = false.
Proof.
  induction s as [|c r IH]; simpl; [reflexivity|].
  now rewrite isupper_tolower, IH.
Qed.

Lemma has_upper_advance (n : nat) (s : string) :
  has_upper s = false -> has_upper (advance n s) = false.
Proof.
  revert s; induction n as [|n IH]; intros s H; destruct s as [|c r]; simpl in *; auto.
  apply orb_false_iff in H as [_ H]. auto.
Qed.

Lemma has_upper_skip_spaces (s : string) :
  has_upper s = false -> has_upper (skip_spaces s) = false.
Proof.
  induction s as [|c r IH]; simpl; [auto|].
  intros H. destruct (isspace c); [|exact H].
  apply orb_false_iff in H as [_ H]. auto.
Qed.

Lemma quoted_upper (s nm rest : string) :
  has_upper s = false -> quoted s = Some (nm, rest) -> has_upper nm = false.
Proof.
  revert nm; induction s as [|c r IH]; intros nm H; simpl; [discriminate|].
  simpl in H. apply orb_false_iff in H as [Hc H].
  destruct (Ascii.eqb c DQUOTE).
  - intros E; injection E as <- <-. reflexivity.
  - destruct (quoted r) as [[tok rest']|]; [|discriminate].
    intros E; injection E as <- <-. simpl. now rewrite Hc, (IH tok).
Qed.

Lemma bare_upper (s : string) :
  has_upper s = false -> has_upper (fst (bare s)) = false.
Proof.
  induction s as [|c r IH]; simpl; [auto|].
  intros H. apply orb_false_iff in H as [Hc H].
  destruct (isspace c); [reflexivity|].
  destruct (bare r) as [tok rest]. simpl in *. now rewrite Hc, IH.
Qed.

Lemma parse_string_upper (s nm rest : string) :
  has_upper s = false -> parse_string (Some s) = Some (nm, rest) ->
  has_upper nm = false.
Proof.
  intros H. apply has_upper_skip_spaces in H. unfold parse_string.
  destruct (skip_spaces s) as [|c r]; [discriminate|].
  destruct (Ascii.eqb c DQUOTE).
  - simpl in H. apply orb_false_iff in H as [_ H]. now apply quoted_upper.
  - intros E. pose proof (bare_upper _ H) as Hb.
    destruct (bare (String c r)) as [tok rest']. injection E as <- <-. exact Hb.
Qed.

Lemma has_empty_quotes_tail (c : ascii) (s : string) :
  has_empty_quotes (String c s) = false -> has_empty_quotes s = false.
Proof.
  simpl. destruct s as [|d r]; [reflexivity|].
  intros H. now apply orb_false_iff in H as [_ H].
Qed.

Lemma has_empty_quotes_advance (n : nat) (s : string) :
  has_empty_quotes s = false -> has_empty_quotes (advance n s) = false.
Proof.
  revert s; induction n as [|n IH]; intros s H; destruct s as [|c r]; auto.
  simpl advance. apply IH. now apply has_empty_quotes_tail in H.
Qed.

Lemma has_empty_quotes_skip_spaces (s : string) :
  has_empty_quotes s = false -> has_empty_quotes (skip_spaces s) = false.
Proof.
  induction s as [|c r IH]; [auto|]. intros H. cbn [skip_spaces].
  destruct (isspace c); [|exact H]. apply IH. now apply has_empty_quotes_tail in H.
Qed.

Lemma has_empty_quotes_app (a b : string) :
  has_empty_quotes (a ++ b) = false ->
  has_empty_quotes a = false /\ has_empty_quotes b = false.
Proof.
  induction a as [|x a IH]; [simpl; auto|].
  intros H. pose proof (has_empty_quotes_tail _ _ H) as Ht.
  destruct (IH Ht) as [Ha Hb]. split; [|exact Hb].
  destruct a as [|y a]; [reflexivity|].
  simpl in H. apply orb_false_iff in H as [H _].
  change (has_empty_quotes (String x (String y a)))
    with ((Ascii.eqb x DQUOTE && Ascii.eqb y DQUOTE)
          || has_empty_quotes (String y a)).
  now rewrite H, Ha.
Qed.

Lemma has_empty_quotes_lower (s : string) :
  has_empty_quotes (lower s) = has_empty_quotes s.
Proof.
  induction s as [|x s IH]; [reflexivity|].
  destruct s as [|y s]; [reflexivity|].
  change (lower (String x (String y s)))
    with (String (tolower x) (String (tolower y) (lower s))).
  change (has_empty_quotes (String (tolower x) (String (tolower y) (lower s))))
    with ((Ascii.eqb (tolower x) DQUOTE && Ascii.eqb (tolower y) DQUOTE)
          || has_empty_quotes (lower (String y s))).
  rewrite IH, !tolower_dquote. reflexivity.
Qed.

Lemma getline_split (s l r : string) :
  getline s = (l, r) -> s = (l ++ r)%string \/ s = (l ++ String LF r)%string.
Proof.
  revert l r; induction s as [|c s IH]; intros l r; simpl.
  - intros H; injection H as <- <-. now left.
  - destruct (Ascii.eqb c LF) eqn:Hc.
    + intros H; injection H as <- <-. apply Ascii.eqb_eq in Hc. subst c. now right.
    + destruct (getline s) as [l0 r0]. intros H; injection H as <- <-.
      destruct (IH l0 r0 eq_refl) as [-> | ->]; [left | right]; reflexivity.
Qed.

Lemma c_str_prefix (l : string) : exists t, l = (c_str l ++ t)%string.
Proof.
  induction l as [|c l [t IH]]; simpl; [now exists EmptyString|].
  destruct (Ascii.eqb c NUL); [now exists (String c l)|].
  exists t. simpl. now rewrite <- IH.
Qed.

Lemma has_empty_quotes_line (input l r : string) :
  has_empty_quotes input = false -> getline input = (l, r) ->
  has_empty_quotes r = false /\ has_empty_quotes (lower (c_str l)) = false.
Proof.
  intros H G. rewrite has_empty_quotes_lower.
  destruct (c_str_prefix l) as [t Ht].
  apply getline_split in G as [-> | ->];
    apply has_empty_quotes_app in H as [Hl Hr];
    rewrite Ht in Hl; apply has_empty_quotes_app in Hl as [Hl _];
    split; auto.
  now apply has_empty_quotes_tail in Hr.
Qed.

Lemma skip_spaces_at_token (s : string) (c : ascii) (r : string) :
  skip_spaces s = String c r -> isspace c = false.
Proof.
  destruct (skip_spaces_split s) as (ws & _ & _ & T). intros E. rewrite E in T.
  simpl in T. now apply negb_true_iff in T.
Qed.

(** A name that [parse_string] reads is empty only when it is written as
    two double quotes with nothing between them. *)
Lemma parse_string_empty (s rest : string) :
  parse_string (Some s) = Some (EmptyString, rest) ->
  skip_spaces s = String DQUOTE (String DQUOTE rest).
Proof.
  unfold parse_string. destruct (skip_spaces s) as [|c r] eqn:E; [discriminate|].
  destruct (Ascii.eqb c DQUOTE) eqn:Hc.
  - apply Ascii.eqb_eq in Hc. subst c. destruct r as [|d r]; simpl; [discriminate|].
    destruct (Ascii.eqb d DQUOTE) eqn:Hd.
    + intros H; injection H as <-. apply Ascii.eqb_eq in Hd. now subst d.
    + destruct (quoted r) as [[tok rest']|]; discriminate.
  - apply skip_spaces_at_token in E. simpl. rewrite E.
    destruct (bare r) as [tok rest']. discriminate.
Qed.

Lemma parse_string_nonempty (s nm rest : string) :
  has_empty_quotes s = false -> parse_string (Some s) = Some (nm, rest) ->
  nm <> EmptyString.
Proof.
  intros H E ->. apply parse_string_empty in E.
  apply has_empty_quotes_skip_spaces in H. rewrite E in H. discriminate.
Qed.

(** The names of the fragments are what [parse_string] reads from the
    lines: a property [Qn] that it gives every name, from lines with the
    property [Q], is a property of every name of the record. *)
Lemma parse_config_names (R Q Qn : string -> Prop) :
  Q EmptyString ->
  (forall input l r, R input -> getline input = (l, r) ->
                     R r /\ Q (lower (c_str l))) ->
  (forall s, Q s -> Q (skip_spaces s)) ->
  (forall n s, Q s -> Q (advance n s)) ->
  (forall s nm rest, Q s -> parse_string (Some s) = Some (nm, rest) -> Qn nm) ->
  forall text cfg,
    R text -> parse_config (Some text) = Ok cfg ->
    Forall (fun f => exists s, name f = Some s /\ Qn s) (frags cfg).
Proof.
  intros Q0 Ql Qs Qa Qp text cfg HR H.
  apply parse_config_read in H as (cfg0 & Hr & -> & _).
  destruct (convert_units_frags cfg0) as [_ ->].
  apply Forall_map. simpl.
  revert Hr. apply (read_config_inv R Q
    (fun c => Forall (fun f => exists s, name f = Some s /\ Qn s) (frags c)));
    auto.
  - intros s nm rest f c Hs Hp Hn _ _ Hc.
    destruct (push_frag_frags f c) as [-> _].
    apply Forall_app. split; [exact Hc|]. constructor; [|constructor].
    exists nm. split; [exact Hn|]. eapply Qp; eauto.
  - intros e s v rest c Hin _ _ Hc.
    destruct (option_entry_frags e Hin v c) as [-> _]. exact Hc.
  - intros c0 H0. apply set_config_defaults_frags in H0 as [-> _]. constructor.
Qed.

(** C3, as the loader has it. Every fragment of a configuration that is
    returned has a name, and the name is not empty unless the file holds
    two double quotes side by side: a name is empty only when it is written
    as an empty pair of quotes. *)
Theorem fragment_name_nonempty :
  (forall text cfg,
     parse_config (Some text) = Ok cfg ->
     Forall (fun f => exists s, name f = Some s
                      /\ (has_empty_quotes text = false -> s <> EmptyString))
            (frags cfg))
  /\ (forall s rest,
        parse_string (Some s) = Some (EmptyString, rest) ->
        skip_spaces s = String DQUOTE (String DQUOTE rest)).
Proof.
  split; [|exact parse_string_empty].
  intros text cfg H. destruct (has_empty_quotes text) eqn:Hq.
  - eapply Forall_impl;
      [|apply (parse_config_names (fun _ => True) (fun _ => True) (fun _ => True)
                 I (fun _ _ _ _ _ => conj I I) (fun _ _ => I) (fun _ _ _ => I)
                 (fun _ _ _ _ _ => I) text cfg I H)].
    intros f (s & Hs & _). exists s. split; [exact Hs | discriminate].
  - eapply Forall_impl;
      [|apply (parse_config_names (fun s => has_empty_quotes s = false)
                 (fun s => has_empty_quotes s = false)
                 (fun s => s <> EmptyString) eq_refl
                 has_empty_quotes_line has_empty_quotes_skip_spaces
                 has_empty_quotes_advance parse_string_nonempty text cfg Hq H)].
    intros f (s & Hs & Hn). exists s. auto.
Qed.

Lemma convert_units_paths (c : config) :
  fraglib_path (convert_units c) = fraglib_path c
  /\ userlib_path (convert_units c) = userlib_path c.
Proof. destruct c; split; reflexivity. Qed.

Lemma option_entry_paths_lower (e : option_entry) :
  In e config_list ->
  forall (s : string) (v : ty e) (rest : string) (c : config),
    has_upper s = false -> parse_fn e (Some s) = Some (v, rest) ->
    paths_lower c -> paths_lower (member_offset e v c).
Proof.
  intros H. each_entry H; intros s v rest c Hs Hv HJ; destruct c;
    try exact HJ; simpl in Hv; apply (parse_string_upper _ _ _ Hs) in Hv;
    destruct HJ as [HU HF]; split; simpl in *; eauto.
Qed.

(** C9, as the loader has it. The name of every fragment and the path of
    the user library are free of upper-case letters; the path of the
    fragment library is free of them when an option line sets it, and is
    otherwise the default, the installation directory as it is written. *)
Theorem stored_strings_lower_case (text : string) (cfg : config) :
  parse_config (Some text) = Ok cfg ->
  Forall (fun f => exists s, name f = Some s /\ has_upper s = false) (frags cfg)
  /\ (exists s, userlib_path cfg = Some s /\ has_upper s = false)
  /\ (exists s, fraglib_path cfg = Some s
                /\ (has_upper s = false
                    \/ exists rest,
                         parse_string (Some (strncpy_128 EFP_DATA_DIR))
                         = Some (s, rest))).
Proof.
  intros H. split.
  - apply (parse_config_names (fun _ => True) (fun s => has_upper s = false)
             (fun s => has_upper s = false) eq_refl
             (fun _ l _ _ _ => conj I (has_upper_lower (c_str l)))
             has_upper_skip_spaces has_upper_advance parse_string_upper
             text cfg I H).
  - apply parse_config_read in H as (cfg0 & Hr & -> & _).
    destruct (convert_units_paths cfg0) as [-> ->].
    change (paths_lower cfg0). revert Hr.
    apply (read_config_inv (fun _ => True) (fun s => has_upper s = false)
             paths_lower); auto.
    + intros input l r _ _. split; [exact I | apply has_upper_lower].
    + apply has_upper_skip_spaces.
    + intros n s. apply has_upper_advance.
    + intros s nm rest f c _ _ _ _ _ Hc. destruct c. exact Hc.
    + intros e s v rest c Hin Hs Hv Hc.
      exact (option_entry_paths_lower e Hin s v rest c Hs Hv Hc).
    + intros c0. rewrite set_config_defaults_eq.
      destruct (parse_double (Some "0.001")) as [[? ?]|]; [|discriminate].
      destruct (parse_double (Some "300.0")) as [[? ?]|]; [|discriminate].
      destruct (parse_double (Some "1.0")) as [[? ?]|]; [|discriminate].
      destruct (parse_double (Some "1.0e3")) as [[? ?]|]; [|discriminate].
      destruct (parse_double (Some "1.0e-4")) as [[? ?]|]; [|discriminate].
      destruct (parse_string (Some (strncpy_128 EFP_DATA_DIR))) as [[dir r]|] eqn:Hd;
        [|discriminate].
      intros E; injection E as <-. split; simpl.
      * exists ".". auto.
      * exists dir. split; [reflexivity|]. right. now exists r.
Qed.

(* ------------------------------------------------------------------ *)
(** ** Unit conversion *)

Lemma scale_length (n : nat) (factor : double) (a : list double) :
  List.length (scale n factor a) = List.length a.
Proof.
  revert a; induction n as [|n IH]; intros a; destruct a; simpl; auto.
Qed.

Lemma scale_nth_error (n : nat) (factor : double) (a : list double) (j : nat) :
  nth_error (scale n factor a) j
  = option_map (fun x => if j <? n then dmul x factor else x) (nth_error a j).
Proof.
  revert a j; induction n as [|n IH]; intros a j.
  - destruct a; simpl; [now destruct j|]. destruct (nth_error (d :: a) j); reflexivity.
  - destruct a as [|x a]; [now destruct j|].
    destruct j as [|j]; [reflexivity|]. simpl. rewrite IH.
    destruct (nth_error a j); reflexivity.
Qed.

Lemma parse_units_values (s : string) (v : double) (rest : string) :
  parse_units (Some s) = Some (v, rest) ->
  v = d_one \/ v = ddiv d_one BOHR_RADIUS.
Proof.
  rewrite parse_units_first. unfold units_table. cbn [enum_first].
  destruct (strneq s "bohr" (strlen "bohr")); [intros H; injection H as <- _; auto|].
  destruct (strneq s "angs" (strlen "angs")); [intros H; injection H as <- _; auto|].
  discriminate.
Qed.

Lemma option_entry_convertible (e : option_entry) :
  In e config_list ->
  forall (s : string) (v : ty e) (rest : string) (c : config),
    parse_fn e (Some s) = Some (v, rest) ->
    convertible c -> convertible (member_offset e v c).
Proof.
  intros H. each_entry H; intros s v rest c Hv HJ; destruct c;
    try exact HJ.
  simpl in Hv. apply parse_units_values in Hv.
  destruct HJ as [_ HF]. split; [exact Hv | exact HF].
Qed.

Lemma read_config_convertible (file : option string) (cfg : config) :
  read_config file = Ok cfg -> convertible cfg.
Proof.
  destruct file as [text|];
    [|unfold read_config; destruct set_config_defaults; discriminate].
  apply (read_config_inv (fun _ => True) (fun _ => True) convertible); auto.
  - intros s nm rest f c _ _ _ Hlc Hlv [Hu HF]. destruct c. split; [exact Hu|].
    simpl in *. apply Forall_app. split; [exact HF|]. constructor; auto.
  - intros e s v rest c Hin _ Hv Hc.
    exact (option_entry_convertible e Hin s v rest c Hv Hc).
  - intros c0. rewrite set_config_defaults_eq.
    destruct (parse_double (Some "0.001")) as [[? ?]|]; [|discriminate].
    destruct (parse_double (Some "300.0")) as [[? ?]|]; [|discriminate].
    destruct (parse_double (Some "1.0")) as [[? ?]|]; [|discriminate].
    destruct (parse_double (Some "1.0e3")) as [[? ?]|]; [|discriminate].
    destruct (parse_double (Some "1.0e-4")) as [[? ?]|]; [|discriminate].
    destruct (parse_string (Some (strncpy_128 EFP_DATA_DIR))) as [[? ?]|];
      [|discriminate].
    intros E; injection E as <-. split; simpl; [now right | constructor].
Qed.

(** C1, as the loader has it. A configuration that is returned is the
    configuration as it was read, converted once: the time step and the
    relaxation time of the thermostat are the values read times the time
    constant, and in every fragment the first [n] coordinates are the
    values read times the units factor of the record, which is 1 or the
    reciprocal of the Bohr radius, and the others are as they were read.
    [n] is the same for all the fragments: 9 for points, 3 for xyzabc and
    3 for rotmat, by the representation the record holds when the last
    line is read, whatever representation the block of a fragment was read
    with; and so is the factor. Names and velocities are not touched. *)
Theorem units_converted_once (file : option string) (cfg : config) :
  parse_config file = Ok cfg ->
  exists cfg0,
    read_config file = Ok cfg0
    /\ time_step cfg = dmul FS_TO_AU (time_step cfg0)
    /\ thermostat_tau cfg = dmul FS_TO_AU (thermostat_tau cfg0)
    /\ units_factor cfg = units_factor cfg0
    /\ (units_factor cfg0 = d_one \/ units_factor cfg0 = ddiv d_one BOHR_RADIUS)
    /\ coord_type cfg = coord_type cfg0
    /\ List.length (frags cfg) = List.length (frags cfg0)
    /\ (forall i f0,
          nth_error (frags cfg0) i = Some f0 ->
          exists f,
            nth_error (frags cfg) i = Some f
            /\ name f = name f0 /\ vel f = vel f0
            /\ List.length (coord f0) = 12 /\ List.length (coord f) = 12
            /\ forall j x,
                 nth_error (coord f0) j = Some x ->
                 nth_error (coord f) j
                 = Some (if j <? n_convert_of (coord_type cfg0)
                         then dmul x (units_factor cfg0) else x))
    /\ n_convert_of EFP_COORD_TYPE_POINTS = 9
    /\ n_convert_of EFP_COORD_TYPE_XYZABC = 3
    /\ n_convert_of EFP_COORD_TYPE_ROTMAT = 3.
Proof.
  intros H. apply parse_config_read in H as (cfg0 & Hr & -> & _).
  exists cfg0. destruct (read_config_convertible _ _ Hr) as [Hu HF].
  destruct (convert_units_frags cfg0) as [_ Hfr].
  split; [exact Hr|]. split; [now destruct cfg0|]. split; [now destruct cfg0|].
  split; [now destruct cfg0|]. split; [exact Hu|]. split; [now destruct cfg0|].
  split; [now rewrite Hfr, length_map|].
  split; [|repeat split].
  intros i f0 Hi. rewrite Hfr, nth_error_map, Hi. simpl.
  eexists. split; [reflexivity|].
  rewrite Forall_forall in HF. destruct (HF f0 (nth_error_In _ _ Hi)) as [Hlc _].
  simpl. rewrite scale_length. repeat split; auto.
  intros j x Hj. now rewrite scale_nth_error, Hj.
Qed.

(* ------------------------------------------------------------------ *)
(** ** The defaults are accepted *)

Lemma substring_full (s : string) (n : nat) :
  String.length s <= n -> substring 0 n s = s.
Proof.
  revert n; induction s as [|c s IH]; intros n H; destruct n; simpl in *;
    try reflexivity; try lia.
  rewrite IH by lia. reflexivity.
Qed.

Lemma has_char_skip_spaces (c : ascii) (s : string) :
  has_char c s = false -> has_char c (skip_spaces s) = false.
Proof.
  induction s as [|x s IH]; simpl; [auto|]. intros H.
  destruct (isspace x); [|exact H]. apply orb_false_iff in H as [_ H]. auto.
Qed.

Lemma parse_string_plain (dir : string) :
  plain_directory dir = true ->
  strncpy_128 dir = dir
  /\ parse_string (Some dir) = Some (bare (skip_spaces dir)).
Proof.
  unfold plain_directory. intros H.
  apply andb_true_iff in H as [H Hq]. apply andb_true_iff in H as [Hl Hb].
  apply Nat.ltb_lt in Hl. apply negb_true_iff in Hb, Hq. split.
  - apply substring_full. lia.
  - unfold parse_string. rewrite <- at_end_skip_spaces in Hb.
    apply (has_char_skip_spaces DQUOTE) in Hq.
    destruct (skip_spaces dir) as [|c r]; [discriminate|].
    simpl in Hq. apply orb_false_iff in Hq as [Hq _]. now rewrite Hq.
Qed.

(** C7. When [strtod] reads a positive number from each of the five
    numeric defaults and the directory of the fragment library is a plain
    name, every entry of the option table parses its own default, the value
    passes the entry's check where it has one, and these values make up the
    record that the reading of the file starts from. *)
Theorem defaults_accepted :
  forallb reads_positive numeric_defaults = true ->
  plain_directory EFP_DATA_DIR = true ->
  Forall (fun e =>
            exists v rest,
              parse_fn e (Some (default_value e)) = Some (v, rest)
              /\ match check_fn e with
                 | Some check => check v = true
                 | None => True
                 end)
         config_list
  /\ exists hess temp step tau tol dir,
       (exists r, parse_double (Some "0.001") = Some (hess, r))
       /\ (exists r, parse_double (Some "300.0") = Some (temp, r))
       /\ (exists r, parse_double (Some "1.0") = Some (step, r))
       /\ (exists r, parse_double (Some "1.0e3") = Some (tau, r))
       /\ (exists r, parse_double (Some "1.0e-4") = Some (tol, r))
       /\ (exists r, parse_string (Some EFP_DATA_DIR) = Some (dir, r))
       /\ set_config_defaults = Ok (config_defaults hess temp step tau tol dir)
       /\ forall text,
            read_config (Some text)
            = ('(st, cfg) <- parse_config_loop (S (String.length text))
                              (next_line (stream_open text))
                              (config_defaults hess temp step tau tol dir) ;;
               if (n_frags cfg <? 1)%Z
               then Error AT_LEAST_ONE_FRAGMENT_MUST_BE_SPECIFIED
               else Ok cfg).
Proof.
  intros Hnum Hdir.
  destruct (parse_string_plain _ Hdir) as [Hcopy Hstr].
  unfold numeric_defaults in Hnum. cbn [forallb] in Hnum.
  repeat (apply andb_true_iff in Hnum; destruct Hnum as [?H Hnum]).
  unfold reads_positive in *.
  destruct (parse_double (Some "0.001")) as [[hess r1]|] eqn:E1; [|discriminate].
  destruct (parse_double (Some "300.0")) as [[temp r2]|] eqn:E2; [|discriminate].
  destruct (parse_double (Some "1.0")) as [[step r3]|] eqn:E3; [|discriminate].
  destruct (parse_double (Some "1.0e3")) as [[tau r4]|] eqn:E4; [|discriminate].
  destruct (parse_double (Some "1.0e-4")) as [[tol r5]|] eqn:E5; [|discriminate].
  assert (Hdefaults : set_config_defaults
                      = Ok (config_defaults hess temp step tau tol
                              (fst (bare (skip_spaces EFP_DATA_DIR))))).
  { rewrite set_config_defaults_eq, E1, E2, E3, E4, E5, Hcopy, Hstr.
    now destruct (bare (skip_spaces EFP_DATA_DIR)). }
  split.
  - unfold config_list, entry.
    repeat (apply Forall_cons;
            [cbn [parse_fn default_value check_fn ty];
             first [ do 2 eexists; split; [reflexivity | first [exact I | reflexivity]]
                   | do 2 eexists; split; [eassumption | assumption]
                   | rewrite Hstr; destruct (bare (skip_spaces EFP_DATA_DIR));
                     do 2 eexists; split; [reflexivity | exact I] ]
            |]).
    apply Forall_nil.
  - exists hess, temp, step, tau, tol, (fst (bare (skip_spaces EFP_DATA_DIR))).
    repeat split; eauto.
    + rewrite Hstr. destruct (bare (skip_spaces EFP_DATA_DIR)). eauto.
    + intros text. unfold read_config. rewrite Hdefaults. reflexivity.
Qed.

(* ------------------------------------------------------------------ *)
(** ** The loader returns *)

(** The bound of the reading loop is never what ends a load: the loader
    returns a configuration or fails with a message of its own. *)
Lemma parse_config_returns (file : option string) :
  parse_config file <> Error OUT_OF_FUEL.
Proof.
  unfold parse_config, read_config. rewrite set_config_defaults_eq.
  destruct (parse_double (Some "0.001")) as [[? ?]|]; [|discriminate].
  destruct (parse_double (Some "300.0")) as [[? ?]|]; [|discriminate].
  destruct (parse_double (Some "1.0")) as [[? ?]|]; [|discriminate].
  destruct (parse_double (Some "1.0e3")) as [[? ?]|]; [|discriminate].
  destruct (parse_double (Some "1.0e-4")) as [[? ?]|]; [|discriminate].
  destruct (parse_string (Some (strncpy_128 EFP_DATA_DIR))) as [[? ?]|];
    [|discriminate].
  cbv beta iota zeta delta [bind].
  destruct file as [text|]; [|discriminate].
  match goal with
  | |- context [parse_config_loop ?f ?st ?c] =>
      destruct (parse_config_loop_fuel f st c) as [Hf _];
        [pose proof (next_line_measure (stream_open text)) as [Hm _];
         simpl in Hm; lia|];
      destruct (parse_config_loop f st c) as [[st' cfg']|e]
  end.
  - destruct (n_frags cfg' <? 1)%Z; discriminate.
  - congruence.
Qed.

End LoaderFacts.

(* ================================================================== *)
(** * More of the loader *)

(** ** The line reader *)

Lemma getline_line (l rest : string) :
  has_char LF l = false -> getline (l ++ String LF rest) = (l, rest).
Proof.
  induction l as [|c l IH]; simpl.
  - reflexivity.
  - intros H. apply orb_false_iff in H as [Hc H]. rewrite Hc, (IH H). reflexivity.
Qed.

Lemma getline_last (l : string) :
  has_char LF l = false -> getline l = (l, EmptyString).
Proof.
  induction l as [|c l IH]; simpl; [reflexivity|].
  intros H. apply orb_false_iff in H as [Hc H]. rewrite Hc, (IH H). reflexivity.
Qed.

Lemma next_line_line (st : stream) (l rest : string) :
  has_char LF l = false ->
  inp st = (l ++ nl ++ rest)%string ->
  next_line st
  = {| buffer := Some (lower (c_str l)); ptr := Some (lower (c_str l));
       inp := rest |}.
Proof.
  intros Hl Hi. unfold next_line, read_line. rewrite Hi.
  pose proof (getline_line l rest Hl) as G. unfold nl. simpl append.
  destruct (l ++ String LF rest)%string as [|c r] eqn:E.
  - destruct l; discriminate.
  - rewrite G. reflexivity.
Qed.

(** X1. [next_line] takes the text up to the next line feed, or up to the
    end of the input when no line feed is left, lower-cases what comes
    before the first NUL of it and puts the cursor on its start; once
    nothing is left, the buffer is NULL and stays so. *)
Theorem next_line_reads_line :
  (forall st l rest,
     has_char LF l = false ->
     inp st = (l ++ nl ++ rest)%string ->
     next_line st
     = {| buffer := Some (lower (c_str l)); ptr := Some (lower (c_str l));
          inp := rest |})
  /\ (forall st l,
        has_char LF l = false ->
        at_end (Some l) = false ->
        inp st = l ->
        next_line st
        = {| buffer := Some (lower (c_str l)); ptr := Some (lower (c_str l));
             inp := EmptyString |})
  /\ (forall st k,
        inp st = EmptyString ->
        buffer (Nat.iter (S k) next_line st) = None
        /\ ptr (Nat.iter (S k) next_line st) = None).
Proof.
  split; [|split].
  - exact next_line_line.
  - intros st l Hl He Hi. unfold next_line, read_line. rewrite Hi.
    destruct l as [|c r]; [discriminate|].
    rewrite (getline_last _ Hl). reflexivity.
  - intros st k Hi. induction k as [|k IH].
    + simpl. unfold next_line, read_line. rewrite Hi. auto.
    + assert (Hk : inp (Nat.iter (S k) next_line st) = EmptyString).
      { clear IH. induction k as [|k IHk]; simpl.
        - unfold next_line, read_line. now rewrite Hi.
        - simpl in IHk. unfold next_line at 1, read_line. now rewrite IHk. }
      change (Nat.iter (S (S k)) next_line st)
        with (next_line (Nat.iter (S k) next_line st)).
      unfold next_line at 1 3, read_line. rewrite Hk. auto.
Qed.

Lemma c_str_id (s : string) : has_char NUL s = false -> c_str s = s.
Proof.
  induction s as [|c s IH]; simpl; [reflexivity|].
  intros H. apply orb_false_iff in H as [Hc H]. rewrite Hc, (IH H). reflexivity.
Qed.

Lemma buffers_end (fuel : nat) (st : stream) : buffer st = None -> buffers fuel st = [].
Proof. intros H. destruct fuel; simpl; now rewrite H. Qed.

Lemma buffers_lines (l : list string) :
  Forall (fun x => has_char LF x = false /\ has_char NUL x = false) l ->
  forall fuel st b0,
    buffer st = Some b0 -> inp st = text_of_lines l -> List.length l < fuel ->
    buffers fuel st = b0 :: map lower l.
Proof.
  induction 1 as [|x l [Hx Hn] Hl IH]; intros fuel st b0 Hb Hi Hf.
  - destruct fuel as [|fuel]; [simpl in Hf; lia|]. simpl. rewrite Hb.
    rewrite buffers_end; [reflexivity|].
    unfold next_line, read_line. now rewrite Hi.
  - destruct fuel as [|fuel]; [simpl in Hf; lia|]. simpl. rewrite Hb. f_equal.
    rewrite (next_line_line st x (text_of_lines l) Hx Hi).
    rewrite (c_str_id _ Hn).
    apply IH; [reflexivity | reflexivity | simpl in Hf; lia].
Qed.

Lemma text_of_lines_length (l : list string) :
  List.length l <= String.length (text_of_lines l).
Proof.
  induction l as [|x l IH]; simpl; [lia|].
  rewrite !length_append. simpl. lia.
Qed.

(** X2. A file whose lines each end in a line feed, and hold neither a
    line feed nor a NUL, is read as those lines, lower-cased, one call of
    [next_line] each, in their order. *)
Theorem file_buffers_lines (l : list string) :
  Forall (fun x => has_char LF x = false /\ has_char NUL x = false) l ->
  file_buffers (text_of_lines l) = map lower l.
Proof.
  intros H. unfold file_buffers. destruct H as [|x l [Hx Hn] Hl].
  - reflexivity.
  - assert (Hi : inp (stream_open (text_of_lines (x :: l)))
                 = (x ++ nl ++ text_of_lines l)%string) by reflexivity.
    rewrite (next_line_line _ x (text_of_lines l) Hx Hi).
    rewrite (c_str_id _ Hn).
    apply (buffers_lines l Hl); [reflexivity | reflexivity|].
    pose proof (text_of_lines_length (x :: l)). simpl in *. lia.
Qed.

Lemma tolower_LF (c : ascii) : Ascii.eqb (tolower c) LF = Ascii.eqb c LF.
Proof. destruct c as [[] [] [] [] [] [] [] []]; reflexivity. Qed.

Lemma tolower_NUL (c : ascii) : Ascii.eqb (tolower c) NUL = Ascii.eqb c NUL.
Proof. destruct c as [[] [] [] [] [] [] [] []]; reflexivity. Qed.

Lemma has_char_lower_LF (s : string) : has_char LF (lower s) = has_char LF s.
Proof. induction s as [|c s IH]; simpl; [reflexivity|]. now rewrite tolower_LF, IH. Qed.

Lemma has_char_lower_NUL (s : string) : has_char NUL (lower s) = has_char NUL s.
Proof. induction s as [|c s IH]; simpl; [reflexivity|]. now rewrite tolower_NUL, IH. Qed.

Lemma c_str_no_NUL (s : string) : has_char NUL (c_str s) = false.
Proof.
  induction s as [|c s IH]; simpl; [reflexivity|].
  destruct (Ascii.eqb c NUL) eqn:Hc; simpl; [reflexivity|]. now rewrite Hc.
Qed.

Lemma c_str_no_LF (s : string) : has_char LF s = false -> has_char LF (c_str s) = false.
Proof.
  induction s as [|c s IH]; simpl; [auto|].
  intros H. apply orb_false_iff in H as [Hc H].
  destruct (Ascii.eqb c NUL); simpl; [reflexivity|]. now rewrite Hc, IH.
Qed.

Lemma getline_no_LF (s : string) : has_char LF (fst (getline s)) = false.
Proof.
  induction s as [|c s IH]; simpl; [reflexivity|].
  destruct (Ascii.eqb c LF) eqn:Hc; simpl; [reflexivity|].
  destruct (getline s) as [l r]. simpl in *. now rewrite Hc.
Qed.

(** X3. Whatever the file holds, a line that [next_line] puts into the
    buffer has no upper-case letter, no line feed and no NUL in it, and
    the cursor stands on its first character. *)
Theorem next_line_buffer_clean (st : stream) (b : string) :
  buffer (next_line st) = Some b ->
  has_upper b = false /\ has_char LF b = false /\ has_char NUL b = false
  /\ ptr (next_line st) = Some b.
Proof.
  unfold next_line, read_line. destruct (inp st) as [|c r]; simpl; [discriminate|].
  pose proof (getline_no_LF (String c r)) as Hl.
  destruct (getline (String c r)) as [l r'] eqn:G. simpl in G. rewrite G.
  simpl in *. intros H; injection H as <-.
  rewrite has_upper_lower, has_char_lower_LF, has_char_lower_NUL, c_str_no_NUL.
  rewrite (c_str_no_LF _ Hl). auto.
Qed.

(** ** Strings *)

Lemma bare_token (s : string) :
  s = (fst (bare s) ++ snd (bare s))%string
  /\ has_space (fst (bare s)) = false
  /\ at_space_or_end (snd (bare s)) = true.
Proof.
  induction s as [|c s (E & Hs & Hr)]; simpl; [auto|].
  destruct (isspace c) eqn:Hc; simpl.
  - rewrite Hc. auto.
  - destruct (bare s) as [tok rest]. simpl in *. rewrite Hc, Hs.
    repeat split; [f_equal; exact E | assumption].
Qed.

Lemma quoted_token (s tok rest : string) :
  quoted s = Some (tok, rest) ->
  s = (tok ++ dq ++ rest)%string /\ has_char DQUOTE tok = false.
Proof.
  revert tok; induction s as [|c s IH]; intros tok; simpl; [discriminate|].
  destruct (Ascii.eqb c DQUOTE) eqn:Hc.
  - intros H; injection H as <- <-. apply Ascii.eqb_eq in Hc. subst c. auto.
  - destruct (quoted s) as [[tok' rest']|]; [|discriminate].
    intros H; injection H as <- <-. destruct (IH tok' eq_refl) as [E Hq].
    split; [simpl; f_equal; exact E | simpl; now rewrite Hc, Hq].
Qed.

Lemma quoted_none (s : string) : quoted s = None <-> has_char DQUOTE s = false.
Proof.
  induction s as [|c s IH]; simpl; [tauto|].
  destruct (Ascii.eqb c DQUOTE); simpl.
  - split; discriminate.
  - destruct (quoted s) as [[tok rest]|].
    + split; [discriminate|]. intros H. apply IH in H. discriminate.
    + split; [intros _; now apply IH | reflexivity].
Qed.

(** X4. What [parse_string] returns. A token it reads is either bare: the
    text from the first character that is no white space up to the next
    white space, not empty and not starting with a double quote; or
    quoted: the text between a double quote and the next one, which may be
    empty and may hold white space. In both cases the cursor is left right
    behind the token, or behind its closing quote. It reads nothing
    exactly when the line is blank from the cursor on, or a quote is
    opened and not closed. *)
Theorem parse_string_token (s : string) :
  (forall tok rest,
     parse_string (Some s) = Some (tok, rest) ->
     (skip_spaces s = (tok ++ rest)%string
      /\ at_end (Some tok) = false
      /\ Ascii.eqb (peek (Some tok)) DQUOTE = false
      /\ has_space tok = false
      /\ at_space_or_end rest = true)
     \/ (skip_spaces s = (dq ++ tok ++ dq ++ rest)%string
         /\ has_char DQUOTE tok = false))
  /\ (parse_string (Some s) = None
      <-> blank s = true
          \/ exists r, skip_spaces s = String DQUOTE r
                       /\ has_char DQUOTE r = false).
Proof.
  unfold parse_string. pose proof (at_end_skip_spaces s) as Hb.
  destruct (skip_spaces s) as [|c r] eqn:E.
  - split; [discriminate|]. simpl in Hb. split; [auto | reflexivity].
  - simpl in Hb. destruct (Ascii.eqb c DQUOTE) eqn:Hc.
    + apply Ascii.eqb_eq in Hc. subst c. split.
      * intros tok rest H. right. apply quoted_token in H as [-> Hq]. auto.
      * rewrite quoted_none. split.
        -- intros H. right. now exists r.
        -- intros [H | (r' & Hr & Hq)]; [congruence|]. now injection Hr as <-.
    + split.
      * intros tok rest H. left.
        destruct (bare_token (String c r)) as (Eb & Hs & Hr).
        pose proof (skip_spaces_at_token s c r E) as Hsp.
        destruct (bare (String c r)) as [tok' rest'] eqn:B.
        injection H as <- <-. simpl in *. rewrite Hsp in B.
        destruct (bare r) as [t0 r0]. injection B as <- <-. simpl. auto.
      * split; [discriminate|].
        intros [H | (r' & Hr & _)]; [congruence|].
        injection Hr as -> _. discriminate.
Qed.

(** ** The enumeration matcher, for any table *)

Lemma name_len_name (n t : string) :
  has_char LF n = false ->
  name_len n = strlen n /\ name_len (n ++ String LF t) = strlen n.
Proof.
  induction n as [|c n IH]; simpl; [auto|].
  intros H. apply orb_false_iff in H as [Hc H]. rewrite Hc.
  destruct (IH H) as [-> ->]. auto.
Qed.

Lemma strneq_append (s n t : string) :
  strneq s (n ++ t) (strlen n) = strneq s n (strlen n).
Proof.
  revert s; induction n as [|c n IH]; intros s; simpl; [reflexivity|].
  destruct s as [|x s]; [reflexivity|]. now rewrite IH.
Qed.

Lemma strchr_LF_name (n t : string) :
  has_char LF n = false ->
  strchr_LF n = None /\ strchr_LF (n ++ String LF t) = Some (String LF t).
Proof.
  induction n as [|c n IH]; simpl; [auto|].
  intros H. apply orb_false_iff in H as [Hc H]. rewrite Hc. apply (IH H).
Qed.

Lemma parse_enum_loop_table {V : Type} (s : string) (names : list string) :
  forall (values : list V) (fuel : nat) (p0 : string),
    names <> [] ->
    forallb (fun n => negb (has_char LF n)) names = true ->
    List.length names <= List.length values ->
    enum_entry p0 = String.concat nl names ->
    String.length (String.concat nl names) < fuel ->
    parse_enum_loop fuel s (Some p0) values = enum_first (combine names values) s.
Proof.
  induction names as [|n t IH]; intros values fuel p0 Hne Hlf Hlen Hp Hf; [congruence|].
  destruct fuel as [|fuel]; [lia|].
  destruct values as [|v values]; [simpl in Hlen; lia|].
  cbn [forallb] in Hlf. apply andb_true_iff in Hlf as [Hn Hlf].
  apply negb_true_iff in Hn.
  cbn [parse_enum_loop combine enum_first]. rewrite Hp.
  destruct t as [|m t].
  - cbn [String.concat]. destruct (name_len_name n EmptyString Hn) as [-> _].
    destruct (strneq s n (strlen n)); [reflexivity|].
    destruct (strchr_LF_name n EmptyString Hn) as [-> _].
    now destruct fuel.
  - change (String.concat nl (n :: m :: t))
      with (n ++ String LF (String.concat nl (m :: t)))%string in *.
    destruct (name_len_name n (String.concat nl (m :: t)) Hn) as [_ ->].
    rewrite strneq_append.
    destruct (strneq s n (strlen n)); [reflexivity|].
    destruct (strchr_LF_name n (String.concat nl (m :: t)) Hn) as [_ ->].
    apply IH.
    + discriminate.
    + exact Hlf.
    + cbn [List.length] in *. lia.
    + reflexivity.
    + rewrite length_append in Hf. cbn [String.length] in Hf. lia.
Qed.

(** X6. For any table of names that hold no line feed, the first of them
    not empty, and at least as many values, [parse_enum] takes the first
    entry, in the order of the table, whose name the input starts with:
    it writes that entry's value, moves the cursor past the name, and
    fails when there is no such entry. It does not look for a longer
    name further down the table. *)
Theorem parse_enum_first_match {V : Type} (names : list string) (values : list V)
    (s : string) :
  at_end (Some (hd EmptyString names)) = false ->
  forallb (fun n => negb (has_char LF n)) names = true ->
  List.length names <= List.length values ->
  parse_enum (Some s) (String.concat nl names) values
  = enum_first (combine names values) s.
Proof.
  intros Hhd Hlf Hlen. unfold parse_enum.
  apply parse_enum_loop_table; auto.
  - destruct names; [discriminate | discriminate].
  - destruct names as [|[|c r] t]; try discriminate.
    cbn [forallb] in Hlf. apply andb_true_iff in Hlf as [Hn _].
    apply negb_true_iff in Hn. simpl in Hn. apply orb_false_iff in Hn as [Hc _].
    destruct t; simpl; now rewrite Hc.
Qed.

(** ** The terms option, continued *)

Lemma terms_sentence_bits (s : string) (bits : Z) :
  terms_sentence s bits -> Z.land bits 15 = bits.
Proof.
  induction 1 as [|kw value ws rest bits Hin _ _ _ IH]; [reflexivity|].
  rewrite Z.land_lor_distr_l, IH.
  destruct Hin as [E|[E|[E|[E|[]]]]]; injection E as _ <-; reflexivity.
Qed.

(** X7. The set of terms that [parse_terms] returns is made of the bits of
    the four keywords and of nothing else, and it is not empty: a number
    from 1 to 15. The parser reads the whole line, and it does not skip
    white space before the first keyword: that is left to its caller. *)
Theorem parse_terms_bits :
  (forall s bits rest,
     parse_terms (Some s) = Some (bits, rest) ->
     rest = EmptyString /\ Z.land bits 15 = bits /\ (1 <= bits <= 15)%Z)
  /\ (forall c r, isspace c = true -> parse_terms (Some (String c r)) = None).
Proof.
  split.
  - intros s bits rest H. unfold parse_terms in H.
    destruct (parse_terms_loop (String.length s) s 0) as [[b p]|] eqn:Hl;
      [|discriminate].
    destruct (b =? 0)%Z eqn:Hz; [discriminate|]. injection H as <- <-.
    apply parse_terms_loop_sound in Hl as (-> & b' & Hs & ->).
    rewrite Z.lor_0_l in *. apply Z.eqb_neq in Hz.
    apply terms_sentence_bits in Hs. split; [reflexivity|]. split; [exact Hs|].
    assert (Hm : Z.land b' 15 = (b' mod 2 ^ 4)%Z)
      by (apply (Z.land_ones b' 4); lia).
    pose proof (Z.mod_pos_bound b' (2 ^ 4) eq_refl) as Hb.
    rewrite <- Hm, Hs in Hb. change (2 ^ 4)%Z with 16%Z in Hb. lia.
  - intros c r Hc.
    destruct c as [[] [] [] [] [] [] [] []]; try discriminate Hc; reflexivity.
Qed.

Section LoaderExtras.

Context `{P : Platform}.

(** ** Option lines, continued *)

Ltac entry_cases H :=
  unfold config_list, entry in H;
  repeat (destruct H as [<-|H]); [..|destruct H].

Lemma prefix_free_names (names : list string) (a b s : string) :
  prefix_free names = true -> In a names -> In b names ->
  starts_with a s = true -> starts_with b s = true -> a = b.
Proof.
  induction names as [|n t IH]; simpl; [tauto|].
  intros H Ha Hb Sa Sb. apply andb_true_iff in H as [Hn Ht].
  rewrite forallb_forall in Hn.
  assert (Hx : forall m, In m t -> starts_with n s = true ->
                         starts_with m s = true -> False).
  { intros m Hm Sn Sm. specialize (Hn m Hm).
    apply andb_true_iff in Hn as [H1 H2]. apply negb_true_iff in H1, H2.
    destruct (Nat.le_ge_cases (strlen n) (strlen m)) as [L|L].
    - rewrite (starts_with_chain n m s) in H1; auto; discriminate.
    - rewrite (starts_with_chain m n s) in H2; auto; discriminate. }
  destruct Ha as [<-|Ha], Hb as [<-|Hb]; auto.
  - exfalso. eauto.
  - exfalso. eauto.
Qed.

Lemma parse_field_in_dispatch (l : list option_entry) (e : option_entry)
    (st : stream) (t : string) (cfg : config) :
  prefix_free (map entry_name l) = true ->
  In e l ->
  ptr st = Some (entry_name e ++ t)%string ->
  parse_field_in l st cfg = run_entry e st t cfg.
Proof.
  intros Hpf Hin Hp. induction l as [|e0 l IH]; [destruct Hin|].
  cbn [parse_field_in]. rewrite Hp. cbn [deref].
  rewrite strneq_starts_with.
  assert (He : starts_with (entry_name e) (entry_name e ++ t) = true)
    by (apply starts_with_append; now exists t).
  destruct (starts_with (entry_name e0) (entry_name e ++ t)) eqn:H0.
  - assert (E : entry_name e0 = entry_name e).
    { apply (prefix_free_names (map entry_name (e0 :: l)) _ _ (entry_name e ++ t));
        auto; [now left | now apply in_map]. }
    destruct Hin as [->|Hin].
    + unfold run_entry, skip_space, set_ptr. cbn [ptr buffer inp option_map].
      rewrite advance_append. reflexivity.
    + exfalso. simpl in Hpf. apply andb_true_iff in Hpf as [Hn _].
      rewrite forallb_forall in Hn.
      specialize (Hn (entry_name e) (in_map entry_name _ _ Hin)).
      rewrite E in Hn. apply andb_true_iff in Hn as [Hn _].
      apply negb_true_iff in Hn.
      assert (starts_with (entry_name e) (entry_name e) = true).
      { apply starts_with_append. exists EmptyString.
        clear. induction (entry_name e); simpl; congruence. }
      congruence.
  - destruct Hin as [->|Hin]; [congruence|].
    simpl in Hpf. apply andb_true_iff in Hpf as [_ Hpf]. auto.
Qed.

(** X8. No option is shadowed by an earlier entry of the table: a line
    that starts with the name of an entry is handled by that entry, which
    parses what follows the name and the white space behind it, stores the
    value and checks it. The names of the table are prefix-free, so the
    order of the entries plays no part. *)
Theorem parse_field_dispatch (e : option_entry) (st : stream) (t : string)
    (cfg : config) :
  In e config_list ->
  ptr st = Some (entry_name e ++ t)%string ->
  parse_field st cfg = run_entry e st t cfg.
Proof.
  intros Hin Hp. apply parse_field_in_dispatch; auto.
Qed.

Lemma parse_field_in_unknown (l : list option_entry) (st : stream) (cfg : config) :
  parse_field_in l st cfg = Error UNKNOWN_OPTION_IN_INPUT_FILE
  <-> forallb (fun e => negb (starts_with (entry_name e) (deref (ptr st)))) l = true.
Proof.
  induction l as [|e l IH]; cbn [parse_field_in forallb]; [tauto|].
  rewrite strneq_starts_with.
  destruct (starts_with (entry_name e) (deref (ptr st))); cbn [negb andb].
  - split; [|discriminate].
    destruct (parse_fn e _) as [[v rest]|]; [|discriminate].
    destruct (check_fn e) as [chk|]; [destruct (chk v)|]; discriminate.
  - exact IH.
Qed.

(** X9. [parse_field] ends the load with the unknown-option error exactly
    when no name of the option table is a prefix of the text at the
    cursor; a line that starts with a name of the table ends in another
    way, whatever follows the name. *)
Theorem parse_field_unknown (st : stream) (cfg : config) :
  parse_field st cfg = Error UNKNOWN_OPTION_IN_INPUT_FILE
  <-> forallb (fun e => negb (starts_with (entry_name e) (deref (ptr st))))
              config_list = true.
Proof. apply parse_field_in_unknown. Qed.

Lemma isspace_not_hash (x : ascii) : isspace x = true -> Ascii.eqb x HASH = false.
Proof. destruct x as [[] [] [] [] [] [] [] []]; try discriminate; reflexivity. Qed.

(** X10. A comment is known by the character the cursor stands on. With
    the cursor on white space and a [#] behind that white space, as on a
    fresh line whose comment is indented, the line is not skipped: it is
    taken for an option line, and the round of the reading loop ends the
    load with the unknown-option error. *)
Theorem indented_comment_rejected (st : stream) (cfg : config) (x : ascii)
    (r c : string) :
  ptr st = Some (String x r) ->
  isspace x = true ->
  skip_spaces r = String HASH c ->
  parse_config_step st cfg = Error UNKNOWN_OPTION_IN_INPUT_FILE.
Proof.
  intros Hp Hx Hr. unfold parse_config_step. rewrite Hp. cbn [peek].
  rewrite (isspace_not_hash x Hx).
  assert (Hs : ptr (skip_space st) = Some (String HASH c)).
  { unfold skip_space, set_ptr. cbn [ptr]. rewrite Hp. cbn [option_map skip_spaces].
    now rewrite Hx, Hr. }
  rewrite Hs. cbn [at_end deref].
  assert (Hf : strneq (String HASH c) "fragment" (strlen "fragment") = false)
    by reflexivity.
  rewrite Hf.
  assert (Hu : parse_field (skip_space st) cfg = Error UNKNOWN_OPTION_IN_INPUT_FILE).
  { apply parse_field_in_unknown. rewrite Hs. reflexivity. }
  cbn [ptr]. 
  replace (set_ptr st (option_map skip_spaces (Some (String x r))))
    with (skip_space st) by (unfold skip_space; now rewrite Hp).
  rewrite Hu. reflexivity.
Qed.

Ltac member_cases H :=
  unfold members in H;
  repeat (destruct H as [<-|H]); [..|destruct H].

Lemma member_read_back (m : member) :
  In m members ->
  forall (v : ty (of_entry m)) (c : config),
    read m (member_offset (of_entry m) v c) = Some v
    /\ frags (member_offset (of_entry m) v c) = frags c
    /\ n_frags (member_offset (of_entry m) v c) = n_frags c.
Proof.
  intros H. member_cases H; intros v c; destruct c; repeat split.
Qed.

Lemma member_others_kept (m m' : member) :
  In m members -> In m' members ->
  String.eqb (entry_name (of_entry m)) (entry_name (of_entry m')) = false ->
  forall (v : ty (of_entry m)) (c : config),
    read m' (member_offset (of_entry m) v c) = read m' c.
Proof.
  intros H H'. member_cases H; member_cases H'; intros E v c;
    first [discriminate E | destruct c; reflexivity].
Qed.

(** X11. Each row of the option table writes the member of the record
    that its offset names, and nothing else. After the store, that member
    holds the value stored; the members of the other rows, the list of
    fragments and its counter are as before. So it is with an option line:
    when [parse_field] returns, the member of one row holds the value that
    the parser of that row has read behind the name, and the rest of the
    record is as it was. *)
Theorem option_store_read_back :
  map of_entry members = config_list
  /\ (forall m, In m members ->
      forall (v : ty (of_entry m)) (c : config),
        read m (member_offset (of_entry m) v c) = Some v
        /\ frags (member_offset (of_entry m) v c) = frags c
        /\ n_frags (member_offset (of_entry m) v c) = n_frags c
        /\ forall m', In m' members ->
             String.eqb (entry_name (of_entry m)) (entry_name (of_entry m')) = false ->
             read m' (member_offset (of_entry m) v c) = read m' c)
  /\ (forall st cfg st' cfg',
        parse_field st cfg = Ok (st', cfg') ->
        exists m v rest,
          In m members
          /\ parse_fn (of_entry m)
               (Some (skip_spaces (advance (strlen (entry_name (of_entry m)))
                                     (deref (ptr st))))) = Some (v, rest)
          /\ ptr st' = Some rest
          /\ read m cfg' = Some v
          /\ frags cfg' = frags cfg
          /\ n_frags cfg' = n_frags cfg
          /\ forall m', In m' members ->
               String.eqb (entry_name (of_entry m)) (entry_name (of_entry m')) = false ->
               read m' cfg' = read m' cfg).
Proof.
  assert (Hmap : map of_entry members = config_list) by reflexivity.
  split; [exact Hmap|]. split.
  - intros m Hm v c. destruct (member_read_back m Hm v c) as (H1 & H2 & H3).
    repeat (split; [assumption|]).
    intros m' Hm' E. exact (member_others_kept m m' Hm Hm' E v c).
  - intros st cfg st' cfg' H.
    apply parse_field_in_inv in H as (e & v & rest & Hin & Hp & -> & ->).
    rewrite <- Hmap in Hin. apply in_map_iff in Hin as (m & He & Hm). subst e.
    destruct (member_read_back m Hm v cfg) as (H1 & H2 & H3).
    exists m, v, rest. split; [exact Hm|]. split; [exact Hp|].
    split; [reflexivity|]. repeat (split; [assumption|]).
    intros m' Hm' E. exact (member_others_kept m m' Hm Hm' E v cfg).
Qed.

(** ** Fragment blocks, continued *)

Lemma store_nth_error (idx : nat) (v : double) (a : list double) (j : nat) :
  idx < List.length a ->
  nth_error (store idx v a) j = if j =? idx then Some v else nth_error a j.
Proof.
  revert idx j; induction a as [|x a IH]; intros idx j H; [simpl in H; lia|].
  destruct idx as [|idx]; destruct j as [|j]; simpl; try reflexivity.
  apply IH. simpl in H. lia.
Qed.

Lemma scan_doubles_length (n : nat) (p : option string) (vs : list double)
    (p' : option string) :
  scan_doubles n p = Some (vs, p') -> List.length vs = n.
Proof.
  revert p vs p'; induction n as [|n IH]; intros p vs p'; simpl.
  - intros H; injection H as <- _. reflexivity.
  - destruct (parse_double p) as [[v rest]|]; [|discriminate].
    destruct (scan_doubles n (Some rest)) as [[ws q]|] eqn:E; [|discriminate].
    intros H; injection H as <- _. simpl. f_equal. exact (IH _ _ _ E).
Qed.

Lemma read_doubles_scan (n : nat) (p : option string) (idx : nat) (a : list double) :
  idx + n <= List.length a ->
  match read_doubles n p idx a with
  | None => scan_doubles n p = None
  | Some (p', a') =>
      exists vs,
        scan_doubles n p = Some (vs, p')
        /\ forall j,
             nth_error a' j
             = if (idx <=? j) && (j <? idx + n)
               then nth_error vs (j - idx) else nth_error a j
  end.
Proof.
  revert p idx a; induction n as [|n IH]; intros p idx a H; simpl.
  - exists []. split; [reflexivity|]. intros j.
    destruct (Nat.leb_spec idx j), (Nat.ltb_spec j (idx + 0));
      cbn [andb]; try lia; reflexivity.
  - destruct (parse_double p) as [[v rest]|]; [|reflexivity].
    specialize (IH (Some rest) (S idx) (store idx v a)).
    rewrite store_length in IH. specialize (IH ltac:(lia)).
    destruct (read_doubles n (Some rest) (S idx) (store idx v a)) as [[p' a']|].
    + destruct IH as (vs & Hs & Hj). exists (v :: vs). rewrite Hs.
      split; [reflexivity|]. intros j. rewrite Hj.
      rewrite store_nth_error by lia.
      destruct (Nat.leb_spec (S idx) j), (Nat.ltb_spec j (S idx + n)),
        (Nat.leb_spec idx j), (Nat.ltb_spec j (idx + S n)), (Nat.eqb_spec j idx);
        cbn [andb]; try lia; try reflexivity.
      * replace (j - idx) with (S (j - S idx)) by lia. reflexivity.
      * subst j. now rewrite Nat.sub_diag.
    + now rewrite IH.
Qed.

(** X12. The loops of [parse_frag] that read a row: the [n] numbers that
    [strtod] reads one after the other are stored in their order at
    [idx], [idx + 1], ... and no other element of the array is changed;
    when one of the [n] is missing nothing is returned. *)
Theorem read_doubles_array (n : nat) (p : option string) (idx : nat)
    (a : list double) :
  idx + n <= List.length a ->
  (read_doubles n p idx a = None <-> scan_doubles n p = None)
  /\ (forall p' a',
        read_doubles n p idx a = Some (p', a') ->
        exists vs,
          scan_doubles n p = Some (vs, p')
          /\ List.length vs = n
          /\ List.length a' = List.length a
          /\ (forall k, k < n -> nth_error a' (idx + k) = nth_error vs k)
          /\ (forall j, j < idx \/ idx + n <= j -> nth_error a' j = nth_error a j)).
Proof.
  intros H. pose proof (read_doubles_scan n p idx a H) as Hs. split.
  - destruct (read_doubles n p idx a) as [[p' a']|].
    + destruct Hs as (vs & E & _). rewrite E. split; discriminate.
    + tauto.
  - intros p' a' E. rewrite E in Hs. destruct Hs as (vs & Hv & Hj).
    exists vs. split; [exact Hv|]. split; [eapply scan_doubles_length; eauto|].
    split; [eapply read_doubles_length; eauto|]. split.
    + intros k Hk. rewrite Hj.
      replace (idx <=? idx + k) with true by (symmetry; apply Nat.leb_le; lia).
      replace (idx + k <? idx + n) with true by (symmetry; apply Nat.ltb_lt; lia).
      simpl. f_equal. lia.
    + intros j Hjr. rewrite Hj.
      destruct (Nat.leb_spec idx j), (Nat.ltb_spec j (idx + n));
        cbn [andb]; try lia; reflexivity.
Qed.

Lemma parse_rows_scan (n_rows n_cols : nat) (st : stream) (idx : nat)
    (a : list double) (st' : stream) (a' : list double) :
  idx + n_rows * n_cols <= List.length a ->
  parse_rows n_rows n_cols st idx a = Ok (st', a') ->
  exists vs,
    scan_rows n_rows n_cols st = Some vs
    /\ List.length vs = n_rows * n_cols
    /\ forall j,
         nth_error a' j
         = if (idx <=? j) && (j <? idx + n_rows * n_cols)
           then nth_error vs (j - idx) else nth_error a j.
Proof.
  revert st idx a; induction n_rows as [|n IH]; intros st idx a H; simpl.
  - intros E; injection E as <- <-. exists []. repeat split. intros j.
    destruct (Nat.leb_spec idx j), (Nat.ltb_spec j (idx + 0));
      cbn [andb]; try lia; reflexivity.
  - simpl in H. pose proof (read_doubles_scan n_cols (ptr st) idx a ltac:(lia)) as Hs.
    destruct (read_doubles n_cols (ptr st) idx a) as [[p a1]|] eqn:Hr; [|discriminate].
    destruct Hs as (vs & Hv & Hj).
    pose proof (scan_doubles_length _ _ _ _ Hv) as Hl.
    pose proof (read_doubles_length _ _ _ _ _ _ Hr) as Hla.
    rewrite next_line_set_ptr. intros E.
    apply IH in E as (ws & Hw & Hlw & Hk); [|lia].
    exists (vs ++ ws). rewrite Hv, Hw. split; [reflexivity|].
    split; [rewrite length_app; lia|].
    intros j. rewrite Hk, Hj.
    destruct (Nat.leb_spec (idx + n_cols) j),
      (Nat.ltb_spec j (idx + n_cols + n * n_cols)),
      (Nat.leb_spec idx j), (Nat.ltb_spec j (idx + n_cols)),
      (Nat.ltb_spec j (idx + (n_cols + n * n_cols)));
      cbn [andb]; try lia; try reflexivity.
    + rewrite nth_error_app2 by lia. f_equal. lia.
    + rewrite nth_error_app1 by lia. reflexivity.
Qed.

(** X13. What a fragment holds when [parse_frag] has read it. Its
    coordinates are the values of the rows of its block, in the order of
    the file, followed by zeros up to the twelve elements of the array;
    its velocities are the six values of the line behind the velocity
    line when such a line follows the block, and six zeros when the file
    ends there or goes on with something else. *)
Theorem parse_frag_values (st : stream) (ct : efp_coord_type) (st' : stream)
    (f : frag) :
  parse_frag st ct = Ok (st', f) ->
  exists vs,
    scan_rows (fst (shape ct)) (snd (shape ct)) (next_line st) = Some vs
    /\ List.length vs = fst (shape ct) * snd (shape ct)
    /\ coord f = vs ++ repeat d_zero (12 - fst (shape ct) * snd (shape ct))
    /\ (velocity_follows (S (fst (shape ct))) st = false ->
        vel f = repeat d_zero 6)
    /\ (velocity_follows (S (fst (shape ct))) st = true ->
        exists p,
          scan_doubles 6 (row (S (S (fst (shape ct)))) st) = Some (vel f, p)).
Proof.
  rewrite parse_frag_name.
  destruct (parse_string (ptr st)) as [[nm rest]|]; [|discriminate].
  unfold frag_after_name.
  destruct (parse_rows _ _ (next_line st) 0 _) as [[st1 a]|e] eqn:Hr; [|discriminate].
  pose proof (parse_rows_length _ _ _ _ _ _ _ Hr) as Hla. rewrite repeat_length in Hla.
  pose proof (parse_rows_stream _ _ _ _ _ _ _ Hr) as Hst.
  rewrite <- Nat.iter_succ_r in Hst.
  assert (Hb : fst (shape ct) * snd (shape ct) <= 12) by (destruct ct; simpl; lia).
  apply parse_rows_scan in Hr as (vs & Hv & Hl & Hj);
    [|rewrite repeat_length; simpl; lia].
  cbv beta iota zeta delta [bind]. intros H. exists vs.
  split; [exact Hv|]. split; [exact Hl|].
  assert (Ha : a = vs ++ repeat d_zero (12 - fst (shape ct) * snd (shape ct))).
  { revert Hb Hl Hj. generalize (fst (shape ct) * snd (shape ct)).
    intros m Hb Hl Hj.
    apply nth_error_ext. intros j. rewrite Hj.
    destruct (Nat.leb_spec 0 j), (Nat.ltb_spec j (0 + m)); cbn [andb]; try lia.
    - rewrite nth_error_app1 by lia. f_equal. lia.
    - rewrite nth_error_app2 by lia.
      destruct (Nat.lt_ge_cases j 12) as [L|L].
      + rewrite !nth_error_repeat by lia. reflexivity.
      + transitivity (@None double); [|symmetry];
          apply nth_error_None; rewrite repeat_length; lia. }
  assert (Hrow : row (S (fst (shape ct))) st = ptr st1)
    by (unfold row; now rewrite Hst).
  unfold velocity_follows. rewrite Hrow.
  destruct (ptr st1) as [b|] eqn:Hp.
  - destruct (strneq (skip_spaces b) "velocity" (strlen "velocity")) eqn:Hvel.
    + pose proof (read_doubles_scan 6 (ptr (next_line st1)) 0 (repeat d_zero 6)
                    ltac:(rewrite repeat_length; lia)) as Hs.
      destruct (read_doubles 6 _ 0 _) as [[p v]|] eqn:Hrd; [|discriminate].
      injection H as _ <-. cbn [coord vel]. split; [exact Ha|]. split; [discriminate|].
      intros _. destruct Hs as (ws & Hw & Hk). exists p.
      assert (Hrow2 : row (S (S (fst (shape ct)))) st = ptr (next_line st1))
        by (unfold row; simpl; now rewrite Hst).
      rewrite Hrow2, Hw. do 2 f_equal.
      pose proof (scan_doubles_length _ _ _ _ Hw) as Hlw.
      pose proof (read_doubles_length _ _ _ _ _ _ Hrd) as Hlv.
      rewrite repeat_length in Hlv.
      apply nth_error_ext. intros j. rewrite Hk.
      destruct (Nat.leb_spec 0 j), (Nat.ltb_spec j (0 + 6)); cbn [andb]; try lia;
        [f_equal; lia|].
      transitivity (@None double); [|symmetry];
        apply nth_error_None; rewrite ?repeat_length; lia.
    + injection H as _ <-. cbn [coord vel]. split; [exact Ha|]. split; [reflexivity|discriminate].
  - injection H as _ <-. cbn [coord vel]. split; [exact Ha|]. split; [reflexivity|discriminate].
Qed.

End LoaderExtras.

(* ------------------------------------------------------------------ *)
(** ** Integers *)

Lemma digits_count (acc : Z) (s : string) :
  snd (Strtol.digits acc s) <= String.length s
  /\ (snd (Strtol.digits acc s) = 0
      <-> match s with String c _ => isdigit c = false | EmptyString => True end).
Proof.
  revert acc; induction s as [|c r IH]; intros acc; simpl.
  - split; [lia|tauto].
  - destruct (isdigit c) eqn:E.
    + specialize (IH (10 * acc + digit_val c)%Z).
      destruct (Strtol.digits _ r) as [v n]. simpl in *. split; [lia|].
      split; [lia|discriminate].
    + simpl. split; [lia|tauto].
Qed.

Lemma skip_spaces_length (s : string) :
  String.length (skip_spaces s) <= String.length s.
Proof.
  induction s as [|c r IH]; simpl; [lia|]. destruct (isspace c); simpl; lia.
Qed.

Lemma advance_length (n : nat) (s : string) :
  n <= String.length s -> String.length (advance n s) = String.length s - n.
Proof.
  revert s; induction n as [|n IH]; intros s H.
  - destruct s; simpl; lia.
  - destruct s as [|c r]; simpl in *; [lia|]. apply IH. lia.
Qed.

Lemma to_int_range (z : Z) : (- 2 ^ 31 <= Strtol.to_int z < 2 ^ 31)%Z.
Proof.
  unfold Strtol.to_int.
  pose proof (Z.mod_pos_bound (z + 2 ^ 31) (2 ^ 32) ltac:(lia)). lia.
Qed.

(** X5. [parse_int] reads a number exactly when a digit stands at the
    cursor, after white space and one sign if there are any: the empty
    string, a sign alone and a word give nothing. What it reads is an
    [int], and the cursor moves on by at least one character and stays
    within the line. *)
Theorem parse_int_reads (s : string) :
  (parse_int (Some s) = None <-> number_ahead s = false)
  /\ (forall v rest,
        parse_int (Some s) = Some (v, rest) ->
        (- 2 ^ 31 <= v < 2 ^ 31)%Z
        /\ is_suffix rest s
        /\ String.length rest < String.length s).
Proof.
  unfold parse_int, Strtol.strtol, number_ahead.
  pose proof (skip_spaces_length s) as Hs.
  set (p := skip_spaces s) in *.
  set (ws := String.length s - String.length p).
  assert (Hcase :
    exists (neg : bool) (sg : nat) (p1 : string),
      match p with
      | String "-"%char r => (true, 1, r)
      | String "+"%char r => (false, 1, r)
      | _ => (false, 0, p)
      end = (neg, sg, p1)
      /\ sg + String.length p1 = String.length p
      /\ match p with
         | String "-"%char (String c _) | String "+"%char (String c _) => isdigit c
         | String c _ => isdigit c
         | EmptyString => false
         end
         = match p1 with String c _ => isdigit c | EmptyString => false end).
  { destruct p as [|c r]; [exists false, 0, EmptyString; auto|].
    destruct (Ascii.eqb_spec c "-"%char) as [->|Hm].
    { exists true, 1, r. repeat split; try (destruct r; reflexivity). }
    destruct (Ascii.eqb_spec c "+"%char) as [->|Hp].
    { exists false, 1, r. repeat split; try (destruct r; reflexivity). }
    exists false, 0, (String c r).
    destruct c as [[] [] [] [] [] [] [] []]; try (repeat split; reflexivity);
      congruence. }
  destruct Hcase as (neg & sg & p1 & -> & Hlen & ->).
  pose proof (digits_count 0 p1) as [Hn Hz].
  destruct (Strtol.digits 0 p1) as [v n]. cbn [snd] in Hn, Hz.
  destruct n as [|n].
  - split.
    + split; [intros _|reflexivity].
      destruct p1 as [|c r]; [reflexivity|]. now apply Hz.
    + intros ? ? H; discriminate H.
  - cbv beta iota. replace (ws + sg + S n) with (S (ws + sg + n)) by lia.
    assert (Hle : S (ws + sg + n) <= String.length s) by (unfold ws; lia).
    split.
    + split; [intros H; discriminate H|]. intros H. exfalso.
      assert (S n = 0); [|lia]. apply Hz. destruct p1; [exact I|exact H].
    + intros w rest H. injection H as <- <-.
      split; [apply to_int_range|].
      split; [exists (S (ws + sg + n)); auto|].
      change (String.length (advance (S (ws + sg + n)) s) < String.length s).
      rewrite advance_length by exact Hle. lia.
Qed.

Section ReadingLoop.

Context `{P : Platform}.

(* ------------------------------------------------------------------ *)
(** ** The reading loop *)

Lemma isspace_plain (x : ascii) :
  isspace x = true -> Ascii.eqb x NUL = false /\ tolower x = x.
Proof. destruct x as [[] [] [] [] [] [] [] []]; try discriminate; split; reflexivity. Qed.

Lemma blank_buffer (c : string) : blank c = true -> lower (c_str c) = c.
Proof.
  induction c as [|x r IH]; simpl; [reflexivity|].
  intros H. apply andb_true_iff in H as [Hx Hb].
  destruct (isspace_plain x Hx) as [-> E]. simpl. now rewrite E, (IH Hb).
Qed.

Lemma blank_not_comment (c : string) :
  blank c = true -> Ascii.eqb (peek (Some c)) HASH = false.
Proof.
  destruct c as [|x r]; [reflexivity|]. simpl. intros H.
  apply andb_true_iff in H as [Hx _].
  destruct x as [[] [] [] [] [] [] [] []]; try discriminate; reflexivity.
Qed.

Lemma comment_buffer (c : string) :
  Ascii.eqb (peek (Some c)) HASH = true ->
  Ascii.eqb (peek (Some (lower (c_str c)))) HASH = true.
Proof.
  destruct c as [|x r]; [discriminate|]. simpl. intros H.
  apply Ascii.eqb_eq in H. subst x. reflexivity.
Qed.

Lemma skipped_line_step (st : stream) (cfg : config) (c : string) :
  ptr st = Some (lower (c_str c)) ->
  (Ascii.eqb (peek (Some c)) HASH || blank c) = true ->
  parse_config_step st cfg = Ok (next_line st, cfg).
Proof.
  intros Hp H. unfold parse_config_step.
  destruct (Ascii.eqb (peek (ptr st)) HASH) eqn:E; [reflexivity|].
  rewrite Hp in E. apply orb_true_iff in H as [H|H].
  - apply comment_buffer in H. congruence.
  - rewrite (blank_buffer c H) in Hp.
    assert (Hs : ptr (skip_space st) = Some (skip_spaces c))
      by (unfold skip_space, set_ptr; cbn [ptr]; now rewrite Hp).
    rewrite Hs, at_end_skip_spaces, H. reflexivity.
Qed.

Lemma skipped_line_load (c text : string) :
  skipped_line c = true ->
  parse_config (Some (c ++ nl ++ text)%string) = parse_config (Some text).
Proof.
  intros H. apply andb_true_iff in H as [Hlf H].
  apply negb_true_iff in Hlf.
  unfold parse_config. f_equal. unfold read_config.
  destruct set_config_defaults as [c0|e]; [|reflexivity].
  cbv beta iota zeta delta [bind]. 
  rewrite (next_line_line (stream_open (c ++ nl ++ text)%string) c text Hlf eq_refl).
  set (st := {| buffer := Some (lower (c_str c)); ptr := Some (lower (c_str c));
                inp := text |}).
  assert (Hl : parse_config_loop (S (String.length (c ++ nl ++ text)%string)) st c0
               = parse_config_loop (S (String.length text))
                   (next_line (stream_open text)) c0).
  { cbn [parse_config_loop]. change (buffer st) with (Some (lower (c_str c))).
    cbv beta iota. rewrite (skipped_line_step st c0 c eq_refl H).
    cbv beta iota zeta delta [bind].
    change (next_line st) with (next_line (stream_open text)).
    pose proof (next_line_measure (stream_open text)) as [Hm _].
    cbn [inp stream_open] in Hm.
    apply (proj2 (parse_config_loop_fuel (S (String.length text))
                   (next_line (stream_open text)) c0 ltac:(lia))).
    rewrite !length_append. unfold nl. cbn [String.length]. lia. }
  rewrite Hl. reflexivity.
Qed.

Lemma append_assoc (a b c : string) : ((a ++ b) ++ c = a ++ (b ++ c))%string.
Proof. induction a as [|x a IH]; simpl; [reflexivity|]. now rewrite IH. Qed.

(** X14. Comment lines, with the [#] in the first column, and lines of
    white space at the head of a file are passed over: the file is loaded
    as the file without them is, to the same record or the same error. *)
Theorem leading_lines_skipped (cs : list string) (text : string) :
  forallb skipped_line cs = true ->
  parse_config (Some (text_of_lines cs ++ text)%string) = parse_config (Some text).
Proof.
  induction cs as [|c cs IH]; [reflexivity|].
  cbn [forallb text_of_lines]. intros H. apply andb_true_iff in H as [Hc Hcs].
  rewrite !append_assoc. rewrite (skipped_line_load c _ Hc). exact (IH Hcs).
Qed.

(** X15. The reading loop only ever appends to the list of fragments: the
    fragments that were there stay as they are and where they are, option
    lines leave the list alone, the counter goes up by one with each
    fragment, and every fragment that is added has a name, twelve
    coordinates and six velocities. *)
Theorem fragments_kept (fuel : nat) (st : stream) (cfg : config) (st' : stream)
    (cfg' : config) :
  parse_config_loop fuel st cfg = Ok (st', cfg') ->
  exists l,
    frags cfg' = frags cfg ++ l
    /\ n_frags cfg' = (n_frags cfg + Z.of_nat (List.length l))%Z
    /\ Forall (fun f => (exists nm, name f = Some nm)
                        /\ List.length (coord f) = 12
                        /\ List.length (vel f) = 6) l.
Proof.
  revert st cfg; induction fuel as [|fuel IH]; intros st cfg;
    cbn [parse_config_loop]; destruct (buffer st).
  - discriminate.
  - intros H; injection H as <- <-. exists []. rewrite app_nil_r.
    split; [reflexivity|]. split; [simpl; lia|constructor].
  - destruct (parse_config_step st cfg) as [[st1 cfg1]|e] eqn:Hs; [|discriminate].
    cbv beta iota zeta delta [bind]. intros H.
    apply IH in H as (l & Hf & Hn & Hall).
    apply parse_config_step_inv in Hs
      as [[_ ->]|[(f & nm & rest & k & _ & _ & Hnm & Hc & Hv & -> & _)
                 |(e & v & rest & Hin & _ & -> & _)]].
    + exists l. auto.
    + destruct (push_frag_frags f cfg) as [Ef En]. rewrite Ef in Hf. rewrite En in Hn.
      exists (f :: l). rewrite Hf, <- app_assoc. split; [reflexivity|].
      split; [cbn [List.length]; lia|].
      constructor; [|exact Hall]. split; [now exists nm|]. auto.
    + destruct (option_entry_frags e Hin v cfg) as [Ef En].
      rewrite Ef in Hf. rewrite En in Hn. exists l. auto.
  - intros H; injection H as <- <-. exists []. rewrite app_nil_r.
    split; [reflexivity|]. split; [simpl; lia|constructor].
Qed.

(** X16. Loading ends. Each round of the reading loop takes at least one
    line from the file, so that for a file of [n] characters [n + 1]
    rounds are enough: the loop never stops for want of rounds, and with
    more rounds allowed it gives the same. *)
Theorem reading_loop_ends (text : string) (cfg : config) (fuel : nat) :
  S (String.length text) <= fuel ->
  parse_config_loop fuel (next_line (stream_open text)) cfg
  = parse_config_loop (S (String.length text)) (next_line (stream_open text)) cfg
  /\ returns (parse_config_loop fuel (next_line (stream_open text)) cfg) = true
  /\ returns (parse_config (Some text)) = true.
Proof.
  intros H.
  pose proof (next_line_measure (stream_open text)) as [Hm _].
  cbn [inp stream_open] in Hm.
  destruct (parse_config_loop_fuel (S (String.length text))
              (next_line (stream_open text)) cfg ltac:(lia)) as [Hne Hsame].
  rewrite (Hsame fuel ltac:(lia)). split; [reflexivity|]. split.
  - destruct (parse_config_loop _ _ cfg) as [?|[]]; try reflexivity. congruence.
  - pose proof (parse_config_returns (Some text)) as Hr.
    destruct (parse_config (Some text)) as [?|[]]; try reflexivity. congruence.
Qed.

End ReadingLoop.

(* ================================================================== *)
(** * The loader at work

    Loads on the reference platform. *)

Lemma units_converted_once_witness :
  std_load file_time_step = Ok (loaded Reference.std file_time_step)
  /\ time_step (loaded Reference.std file_time_step)
     = PrimFloat.mul (@FS_TO_AU Reference.std) 2%float
  /\ exists cfg0,
       @read_config Reference.std (Some file_time_step) = Ok cfg0
       /\ time_step cfg0 = 2%float
       /\ time_step (loaded Reference.std file_time_step)
          = PrimFloat.mul (@FS_TO_AU Reference.std) (time_step cfg0)
       /\ List.length (frags (loaded Reference.std file_time_step)) = 1.
Proof.
  assert (H : @parse_config Reference.std (Some file_time_step)
              = Ok (loaded Reference.std file_time_step))
    by (vm_compute; reflexivity).
  split; [exact H|]. split; [vm_compute; reflexivity|].
  destruct (@units_converted_once Reference.std _ _ H)
    as (cfg0 & Hr & Ht & _ & _ & _ & _ & Hl & _).
  exists cfg0. split; [exact Hr|]. split.
  - vm_compute in Hr. injection Hr as <-. reflexivity.
  - split; [exact Ht|]. vm_compute. reflexivity.
Defined.

(** C1 as it is stated fails on this file. Its fragment is read while the
    record holds xyzabc, as one row of three coordinates and three angles,
    for which three values are to be converted; the option line behind the
    block makes the representation points, and the conversion, which looks
    at the record once the file is read, multiplies nine values of the
    fragment: its three angles too. *)
Lemma angles_scaled_after_coord_line :
  (exists st1 c0 c1 f0,
     @set_config_defaults Reference.std = Ok c0
     /\ coord_type c0 = EFP_COORD_TYPE_XYZABC
     /\ @parse_config_step Reference.std
          (next_line (stream_open file_coord_after)) c0 = Ok (st1, c1)
     /\ frags c1 = [f0]
     /\ coord f0 = [1; 2; 3; 4; 5; 6; 0; 0; 0; 0; 0; 0]%float)
  /\ n_convert_of EFP_COORD_TYPE_XYZABC = 3
  /\ exists cfg0 cfg,
       @read_config Reference.std (Some file_coord_after) = Ok cfg0
       /\ map coord (frags cfg0) = [ [1; 2; 3; 4; 5; 6; 0; 0; 0; 0; 0; 0]%float ]
       /\ std_load file_coord_after = Ok cfg
       /\ coord_type cfg = EFP_COORD_TYPE_POINTS
       /\ map coord (frags cfg)
          = [ (map (fun x => PrimFloat.mul x (units_factor cfg))
                 [1; 2; 3; 4; 5; 6; 0; 0; 0] ++ [0; 0; 0])%float ]
       /\ PrimFloat.ltb 4 (PrimFloat.mul 4 (units_factor cfg)) = true
       /\ PrimFloat.ltb 6 (PrimFloat.mul 6 (units_factor cfg)) = true.
Proof.
  split; [|split; [reflexivity|]].
  - do 4 eexists. split; [vm_compute; reflexivity|]. split; [reflexivity|].
    split; [vm_compute; reflexivity|]. split; reflexivity.
  - do 2 eexists. split; [vm_compute; reflexivity|]. split; [reflexivity|].
    split; [vm_compute; reflexivity|]. split; [reflexivity|].
    split; [vm_compute; reflexivity|]. split; vm_compute; reflexivity.
Qed.

(* ------------------------------------------------------------------ *)

(** C2 as it is stated fails on this file. The representation chosen
    before any fragment is read is xyzabc, whose block is one row of six
    values; the block of the second fragment starts with a row of three
    values, and the load does not end with the incorrect-coordinates error:
    an option line between the two fragments has changed the
    representation, and the second block is read as three rows of three. *)
Lemma fragment_shape_follows_record :
  (exists st1 c0 c1,
     @set_config_defaults Reference.std = Ok c0
     /\ @parse_config_step Reference.std
          (next_line (stream_open file_two_shapes)) c0 = Ok (st1, c1)
     /\ coord_type c1 = EFP_COORD_TYPE_XYZABC)
  /\ shape EFP_COORD_TYPE_XYZABC = (1, 6)
  /\ @has_doubles Reference.std 6 (Some "1 2 3") = false
  /\ exists cfg,
       std_load file_two_shapes = Ok cfg
       /\ map name (frags cfg) = [Some "a"; Some "b"]
       /\ map coord (frags cfg)
          = [ [1; 2; 3; 4; 5; 6; 0; 0; 0; 0; 0; 0];
              [1; 2; 3; 4; 5; 6; 7; 8; 9; 0; 0; 0] ]%float.
Proof.
  split; [|split; [reflexivity|split; [vm_compute; reflexivity|]]].
  - do 3 eexists. split; [vm_compute; reflexivity|].
    split; [vm_compute; reflexivity | reflexivity].
  - eexists. split; [vm_compute; reflexivity|]. split; reflexivity.
Qed.

Lemma fragment_block_shape_witness :
  @parse_frag Reference.std st_short_row EFP_COORD_TYPE_XYZABC
  = Error INCORRECT_FRAGMENT_COORDINATES_FORMAT.
Proof.
  destruct (@fragment_block_shape Reference.std) as (_ & _ & _ & _ & _ & H & _).
  apply (H st_short_row EFP_COORD_TYPE_XYZABC "a" EmptyString 0).
  - vm_compute. reflexivity.
  - simpl. lia.
  - vm_compute. reflexivity.
Defined.

(* ------------------------------------------------------------------ *)

(** C3 as it is stated fails on this file: the fragment it declares is
    loaded, and its name is the empty string. *)
Lemma empty_fragment_name_loaded :
  exists cfg,
    std_load file_empty_name = Ok cfg
    /\ map name (frags cfg) = [Some EmptyString].
Proof. eexists. split; [vm_compute; reflexivity | reflexivity]. Qed.

Lemma fragment_name_nonempty_witness :
  Forall (fun f => exists s, name f = Some s
                   /\ (has_empty_quotes file_time_step = false -> s <> EmptyString))
         (frags (loaded Reference.std file_time_step)).
Proof.
  apply (proj1 (@fragment_name_nonempty Reference.std)).
  vm_compute. reflexivity.
Defined.

(* ------------------------------------------------------------------ *)

Lemma at_least_one_fragment_witness :
  std_load file_no_fragment = Error AT_LEAST_ONE_FRAGMENT_MUST_BE_SPECIFIED.
Proof.
  destruct (@at_least_one_fragment Reference.std) as (_ & _ & H).
  eapply H; vm_compute; reflexivity.
Defined.

(* ------------------------------------------------------------------ *)

(** C5 as it is stated fails on the line [terms elecdisp]: split at white
    space it is the one token [elecdisp], which is no keyword, and yet the
    parser accepts it as electrostatics and dispersion. *)
Lemma terms_without_separator :
  words "elecdisp" = ["elecdisp"]
  /\ terms_of_words "elecdisp" = None
  /\ parse_terms (Some "elecdisp")
     = Some (Z.lor EFP_TERM_ELEC EFP_TERM_DISP, EmptyString)
  /\ exists cfg,
       std_load file_terms_joined = Ok cfg
       /\ terms cfg = Z.lor EFP_TERM_ELEC EFP_TERM_DISP.
Proof.
  repeat split. eexists. split; [vm_compute; reflexivity | reflexivity].
Qed.

Lemma parse_terms_grammar_witness : terms_sentence "elec disp" 5.
Proof.
  destruct (@parse_terms_grammar Reference.std) as (H & _).
  apply (H "elec disp" 5%Z EmptyString). reflexivity.
Defined.

(* ------------------------------------------------------------------ *)

Lemma defaults_accepted_witness :
  exists hess temp step tau tol,
    @set_config_defaults Reference.std
    = Ok (config_defaults hess temp step tau tol "/usr/local/share/libefp")
    /\ PrimFloat.ltb 0 hess = true.
Proof.
  destruct (@defaults_accepted Reference.std)
    as (_ & hess & temp & step & tau & tol & dir & (r1 & H1) & _ & _ & _ & _
        & (r6 & H6) & Hd & _).
  - vm_compute. reflexivity.
  - vm_compute. reflexivity.
  - exists hess, temp, step, tau, tol. split.
    + vm_compute in H6. injection H6 as <- _. exact Hd.
    + vm_compute in H1. injection H1 as <- _. vm_compute. reflexivity.
Defined.

(* ------------------------------------------------------------------ *)

Lemma option_line_trailing_witness :
  @parse_config_step Reference.std st_trailing config_zero
  = Error ONLY_ONE_OPTION_PER_LINE_IS_ALLOWED.
Proof.
  apply (@option_line_trailing Reference.std st_trailing config_zero
           st_trailing_parsed (set_max_steps 5%Z config_zero));
    vm_compute; reflexivity.
Defined.

(* ------------------------------------------------------------------ *)

(** C9 as it is stated fails where the fragment library is installed in a
    directory with an upper-case letter in its name: the default of
    fraglib_path is not read from a line of the file, and a file that does
    not set the option leaves it as it is written. *)
Lemma default_path_keeps_upper_case :
  has_upper "/opt/libEFP" = true
  /\ exists cfg,
       @parse_config (Reference.platform "/opt/libEFP") (Some file_plain) = Ok cfg
       /\ fraglib_path cfg = Some "/opt/libEFP".
Proof.
  split; [reflexivity|]. eexists. split; [vm_compute; reflexivity | reflexivity].
Qed.

Lemma stored_strings_lower_case_witness :
  userlib_path (loaded Reference.std file_upper) = Some "/home/me"
  /\ Forall (fun f => exists s, name f = Some s /\ has_upper s = false)
            (frags (loaded Reference.std file_upper)).
Proof.
  split; [vm_compute; reflexivity|].
  apply (@stored_strings_lower_case Reference.std file_upper).
  vm_compute. reflexivity.
Defined.

(* ------------------------------------------------------------------ *)

Lemma extra_tokens_ignored_witness :
  @parse_frag Reference.std st_extra_tokens EFP_COORD_TYPE_XYZABC
  = Ok (next_line (next_line st_after_rows),
        @Build_frag Reference.std (Some "a")
          [1; 2; 3; 4; 5; 6; 0; 0; 0; 0; 0; 0]%float
          [1; 2; 3; 4; 5; 6]%float).
Proof.
  destruct (@extra_tokens_ignored Reference.std) as (_ & _ & H).
  apply (H st_extra_tokens EFP_COORD_TYPE_XYZABC "a" EmptyString st_after_rows
           _ "velocity" (Some " more") _);
    vm_compute; reflexivity.
Defined.

(* ------------------------------------------------------------------ *)
(** ** Lines, tokens and tables *)

Lemma next_line_reads_line_witness :
  next_line (stream_open ("Run_Type MD" ++ nl ++ "fragment A")%string)
  = {| buffer := Some "run_type md"; ptr := Some "run_type md";
       inp := "fragment A" |}.
Proof.
  exact (proj1 next_line_reads_line
           (stream_open ("Run_Type MD" ++ nl ++ "fragment A")%string)
           "Run_Type MD" "fragment A" eq_refl eq_refl).
Defined.

Lemma file_buffers_lines_witness :
  file_buffers (text_of_lines ["Coord Points"; ""; "fragment A"])
  = ["coord points"; ""; "fragment a"].
Proof.
  apply (file_buffers_lines ["Coord Points"; ""; "fragment A"]).
  repeat constructor.
Defined.

Lemma next_line_buffer_clean_witness :
  has_upper "fragment a" = false
  /\ has_char LF "fragment a" = false
  /\ has_char NUL "fragment a" = false
  /\ ptr (next_line (stream_open ("Fragment A" ++ nl ++ "0 0 0")%string))
     = Some "fragment a".
Proof.
  exact (next_line_buffer_clean
           (stream_open ("Fragment A" ++ nl ++ "0 0 0")%string) "fragment a" eq_refl).
Defined.

Lemma parse_string_token_witness :
  parse_string (Some ("  " ++ dq ++ "h2o")%string) = None
  /\ parse_string (Some "   ") = None.
Proof.
  split.
  - apply (proj2 (parse_string_token ("  " ++ dq ++ "h2o")%string)).
    right. exists "h2o". split; reflexivity.
  - apply (proj2 (parse_string_token "   ")). left. reflexivity.
Defined.

Lemma parse_int_reads_witness :
  parse_int (Some " +") = None /\ parse_int (Some "steps") = None.
Proof.
  split.
  - apply (proj1 (parse_int_reads " +")). reflexivity.
  - apply (proj1 (parse_int_reads "steps")). reflexivity.
Defined.

Lemma parse_enum_first_match_witness :
  parse_enum (Some "tt") (String.concat nl ["t"; "tt"]) [1; 2] = Some (1, "t").
Proof.
  exact (parse_enum_first_match ["t"; "tt"] [1; 2] "tt" eq_refl eq_refl (le_n 2)).
Defined.

Lemma parse_terms_bits_witness : parse_terms (Some " elec") = None.
Proof. exact (proj2 parse_terms_bits " "%char "elec" eq_refl). Defined.

(* ------------------------------------------------------------------ *)
(** ** Option lines *)

Lemma parse_field_dispatch_witness :
  @parse_field Reference.std st_max_steps_zero config_zero
  = Error (OPTION_VALUE_IS_OUT_OF_RANGE "max_steps").
Proof.
  rewrite (@parse_field_dispatch Reference.std max_steps_entry st_max_steps_zero
             " 0" config_zero).
  - reflexivity.
  - do 8 right. left. reflexivity.
  - reflexivity.
Defined.

Lemma parse_field_unknown_witness :
  @parse_field Reference.std (next_line (stream_open "steps 5")) config_zero
  = Error UNKNOWN_OPTION_IN_INPUT_FILE.
Proof. apply (@parse_field_unknown Reference.std). reflexivity. Defined.

Lemma indented_comment_rejected_witness :
  @parse_config_step Reference.std st_indented_comment config_zero
  = Error UNKNOWN_OPTION_IN_INPUT_FILE.
Proof.
  exact (@indented_comment_rejected Reference.std st_indented_comment config_zero
           " "%char " # water" " water" eq_refl eq_refl eq_refl).
Defined.

Lemma option_store_read_back_witness :
  Some (time_step (@set_time_step Reference.std 2%float (@config_zero Reference.std)))
  = Some 2%float
  /\ Some (max_steps (@set_time_step Reference.std 2%float (@config_zero Reference.std)))
     = Some (max_steps (@config_zero Reference.std))
  /\ frags (@set_time_step Reference.std 2%float (@config_zero Reference.std))
     = frags (@config_zero Reference.std).
Proof.
  destruct (proj1 (proj2 (@option_store_read_back Reference.std))
              (@time_step_member Reference.std)
              ltac:(do 11 right; left; reflexivity)
              2%float (@config_zero Reference.std)) as (H1 & H2 & _ & H3).
  split; [exact H1|]. split; [|exact H2].
  exact (H3 (@max_steps_member Reference.std)
            ltac:(do 8 right; left; reflexivity) eq_refl).
Defined.

(* ------------------------------------------------------------------ *)
(** ** Fragment blocks *)

Lemma read_doubles_array_witness :
  exists vs,
    @scan_doubles Reference.std 3 (Some "1 2 3 x") = Some (vs, Some " x")
    /\ List.length vs = 3
    /\ nth_error [0; 1; 2; 3; 0]%float 1 = nth_error vs 0
    /\ nth_error [0; 1; 2; 3; 0]%float 4 = nth_error [0; 0; 0; 0; 0]%float 4.
Proof.
  destruct (proj2 (@read_doubles_array Reference.std 3 (Some "1 2 3 x") 1
                     [0; 0; 0; 0; 0]%float ltac:(cbn; lia))
              (Some " x") [0; 1; 2; 3; 0]%float ltac:(vm_compute; reflexivity))
    as (vs & Hs & Hl & _ & Hin & Hout).
  exists vs. split; [exact Hs|]. split; [exact Hl|]. split.
  - exact (Hin 0 ltac:(lia)).
  - exact (Hout 4 ltac:(cbn; lia)).
Defined.

Lemma parse_frag_values_witness :
  exists vs,
    @scan_rows Reference.std 1 6 (next_line st_extra_tokens) = Some vs
    /\ List.length vs = 6
    /\ [1; 2; 3; 4; 5; 6; 0; 0; 0; 0; 0; 0]%float = (vs ++ repeat 0%float 6)%list.
Proof.
  destruct (@parse_frag_values Reference.std st_extra_tokens EFP_COORD_TYPE_XYZABC
              {| buffer := Some "run_type md"; ptr := Some "run_type md";
                 inp := EmptyString |}
              (@Build_frag Reference.std (Some "a")
                 [1; 2; 3; 4; 5; 6; 0; 0; 0; 0; 0; 0]%float
                 [1; 2; 3; 4; 5; 6]%float)
              ltac:(vm_compute; reflexivity))
    as (vs & Hs & Hl & Hc & _).
  exists vs. split; [exact Hs|]. split; [exact Hl|exact Hc].
Defined.

(* ------------------------------------------------------------------ *)
(** ** Whole files *)

Lemma leading_lines_skipped_witness :
  std_load file_commented = std_load file_plain.
Proof.
  exact (@leading_lines_skipped Reference.std ["# Water"; "   "; "#"] file_plain
           eq_refl).
Defined.

Lemma fragments_kept_witness :
  exists st cfg l,
    @parse_config_loop Reference.std 100 (next_line (stream_open file_two_shapes))
      config_zero = Ok (st, cfg)
    /\ frags cfg = (frags (@config_zero Reference.std) ++ l)%list
    /\ n_frags cfg = (0 + Z.of_nat (List.length l))%Z.
Proof.
  destruct (@parse_config_loop Reference.std 100
              (next_line (stream_open file_two_shapes)) config_zero)
    as [[st cfg]|e] eqn:H; [|vm_compute in H; discriminate H].
  destruct (@fragments_kept Reference.std _ _ _ _ _ H) as (l & Hf & Hn & _).
  exists st, cfg, l. split; [reflexivity|]. split; [exact Hf|exact Hn].
Defined.

Lemma reading_loop_ends_witness :
  @parse_config_loop Reference.std 100 (next_line (stream_open file_plain)) config_zero
  = parse_config_loop (S (String.length file_plain))
      (next_line (stream_open file_plain)) config_zero
  /\ returns (std_load file_plain) = true.
Proof.
  destruct (@reading_loop_ends Reference.std file_plain config_zero 100
              ltac:(apply Nat.leb_le; reflexivity)) as (H & _ & Hr).
  split; [exact H|exact Hr].
Defined.
